(** * Token distances and phonetic encoders of abydos

    A shallow embedding of [Millar.dist] (abydos.distance._millar) with the
    pieces of the token framework it runs on, and of the SfinxBis and
    Norphone encoders (abydos.phonetic._sv).

    Modelling conventions.
    - A Python [Counter] is a finite map from tokens to natural numbers
      ([gmap Token nat]); indexing a missing key yields 0.
    - The alphabet [set(src_tok.keys() | tar_tok.keys())] is a [gset Token];
      the [for] loop walks an enumeration of it.
    - The combinator is embedded twice.  In the first embedding Python
      floats are idealised as real numbers: [float] is [R], [math.log] is
      [ln], and rounding is outside the model.  In the second they are the
      binary64 numbers of the machine, [math.log] is the logarithm of the C
      library, and the order in which the loop enumerates the alphabet is
      a parameter; what depends on rounding or on that order is stated
      there.
    - Python exceptions are explicit: every primitive that can raise
      (integer true division, float division, [math.log]) returns a
      [result], and the loop threads it with a small error monad.
    - A Python [str] is the list of its code points; slices, [replace],
      [translate], [split] and the substring test are functions on such
      lists.  The order in which a [for] loop enumerates a set of strings
      is a parameter. *)

From Stdlib Require Import Reals Lra Lia Ascii String.
From Stdlib Require Import Floats Uint63.
From stdpp Require Import gmap strings list fin_maps.

(** ** Exceptions and the error monad *)

Inductive exn : Set :=
| ZeroDivisionError
| ValueError.

Inductive result (A : Type) : Type :=
| Ok (a : A)
| Raise (e : exn).
Arguments Ok {A} a.
Arguments Raise {A} e.

#[global] Instance result_ret : MRet result := λ A a, Ok a.
#[global] Instance result_bind : MBind result := λ A B k m,
  match m with
  | Ok a => k a
  | Raise e => Raise e
  end.

(** ** Python numeric primitives *)

Module Py.

(** [a / b] on two [int]s (true division): raises on a zero divisor. *)
Definition truediv (a b : nat) : result R :=
  match b with
  | O => Raise ZeroDivisionError
  | S _ => Ok (INR a / INR b)%R
  end.

(** [x / b] with a float numerator and an [int] divisor. *)
Definition fdiv (x : R) (b : nat) : result R :=
  match b with
  | O => Raise ZeroDivisionError
  | S _ => Ok (x / INR b)%R
  end.

(** [math.log x]: a math domain error unless [x] is strictly positive. *)
Definition log (x : R) : result R :=
  if Rlt_dec 0 x then Ok (ln x) else Raise ValueError.

End Py.

(** ** Counters *)

Section Counters.
Context {Token : Type} `{Countable Token}.

(** [c[tok]] on a [Counter]: the stored count, 0 for a missing key. *)
Definition count (c : gmap Token nat) (tok : Token) : nat :=
  default 0 (c !! tok).

(** [Counter(tokens)]: one increment per occurrence, left to right. *)
Definition Counter (tokens : list Token) : gmap Token nat :=
  foldl (λ c tok, <[tok := count c tok + 1]> c) ∅ tokens.

(** Every stored count is at least 1. *)
Definition positive_counts (c : gmap Token nat) : Prop :=
  ∀ t n, c !! t = Some n → 0 < n.

End Counters.

(** ** The tokenizer *)

Module QGrams.

(** The windows of width [q] of [s], left to right. *)
Definition windows (q : nat) (s : string) : list string :=
  map (λ i, String.substring i q s) (seq 0 (String.length s - q + 1)).

(** [n] copies of the marker [c]. *)
Fixpoint marker (n : nat) (c : ascii) : string :=
  match n with
  | O => EmptyString
  | S n' => String c (marker n' c)
  end.

(** Modelled from the spec: the tokenizer class is not among the sources.
    The empty string has no tokens; a string shorter than [q] is its own
    single token; otherwise the tokens are the overlapping substrings of
    width [q].  Boundary markers are optional: when given, [q - 1] copies
    of the start marker and of the stop marker surround the string before
    it is cut. *)
Definition tokenize (q : nat) (start_stop : option (ascii * ascii))
    (s : string) : list string :=
  if decide (s = EmptyString) then []
  else
    let padded :=
      match start_stop with
      | Some (start, stop) =>
          String.append (marker (q - 1) start)
            (String.append s (marker (q - 1) stop))
      | None => s
      end in
    if decide (String.length padded < q) then [padded]
    else windows q padded.

End QGrams.

(** ** The Millar combinator *)

Section Millar.
Context {Str Token : Type} `{Countable Token}.

(** The token extraction scheme of the configured tokenizer.  It belongs to
    the token framework's base class; the combinator is verified for an
    arbitrary scheme. *)
Variable tokens_of : Str → list Token.

(** [self._tokenize(src, tar)] leaves one frequency mapping per string:
    [(self._src_tokens, self._tar_tokens)]. *)
Definition _tokenize (src tar : Str) : gmap Token nat * gmap Token nat :=
  (Counter (tokens_of src), Counter (tokens_of tar)).

(** [c * log(c/n_k)] behind its guard [if c:], for [c] one of
    [src_tok[tok]] and [tar_tok[tok]]; 0 when the guard fails. *)
Definition side_val (c n_k : nat) : result R :=
  if decide (c = 0) then mret 0%R
  else
    q ← Py.truediv c n_k;
    l ← Py.log q;
    mret (INR c * l)%R.

(** One pass through the loop body: the amount added to [score]. *)
Definition contribution (src_tok tar_tok : gmap Token nat) (log2 : R)
    (tok : Token) : result R :=
  let n_k := count src_tok tok + count tar_tok tok in
  src_val ← side_val (count src_tok tok) n_k;
  tar_val ← side_val (count tar_tok tok) n_k;
  Py.fdiv (src_val + tar_val + INR n_k * log2)%R n_k.

(** [for tok in alphabet: ...; score += ...], over an enumeration of the
    alphabet and from the current value of [score]. *)
Fixpoint accumulate (src_tok tar_tok : gmap Token nat) (log2 : R)
    (score : R) (alphabet : list Token) : result R :=
  match alphabet with
  | [] => mret score
  | tok :: rest =>
      c ← contribution src_tok tar_tok log2 tok;
      accumulate src_tok tar_tok log2 (score + c)%R rest
  end.

(** [if score > 0: return score] then [return 0.0]. *)
Definition clamp (score : R) : R :=
  if Rlt_dec 0 score then score else 0%R.

(** [Millar.dist] up to the final test: the accumulated score.  The source
    binds the two mappings crosswise ([tar_tok = self._src_tokens],
    [src_tok = self._tar_tokens]); the model keeps that.  The loop walks
    the alphabet in the order [elements] enumerates it. *)
Definition score_of (src tar : Str) : result R :=
  let '(_src_tokens, _tar_tokens) := _tokenize src tar in
  let tar_tok := _src_tokens in
  let src_tok := _tar_tokens in
  let alphabet : gset Token := dom src_tok ∪ dom tar_tok in
  log2 ← Py.log 2;
  accumulate src_tok tar_tok log2 0%R (elements alphabet).

(** [Millar.dist]. *)
Definition dist (src tar : Str) : result R :=
  score ← score_of src tar;
  mret (clamp score).

(** The alphabet of a comparison, as [dist] builds it. *)
Definition alphabet_of (src tar : Str) : gset Token :=
  dom (snd (_tokenize src tar)) ∪ dom (fst (_tokenize src tar)).

End Millar.

(** ** Closed forms

    What the loop body evaluates to when nothing raises; the theorems
    below relate the program to these. *)

(** The value of [c * log(c/n_k)] under its guard. *)
Definition side_real (c n_k : nat) : R :=
  if decide (c = 0) then 0%R else (INR c * ln (INR c / INR n_k))%R.

(** The value added to [score] for a token counted [a] times on one side
    and [b] times on the other. *)
Definition term_real (a b : nat) : R :=
  ((side_real a (a + b) + side_real b (a + b) + INR (a + b) * ln 2)
   / INR (a + b))%R.

(** Sum of a list of reals. *)
Definition Rsum (l : list R) : R := foldr Rplus 0%R l.

(** The accumulated score, one closed-form term per token of the
    alphabet. *)
Definition score_real {Str Token : Type} `{Countable Token}
    (tokens_of : Str → list Token) (src tar : Str) : R :=
  Rsum (map (λ tok, term_real (count (Counter (tokens_of tar)) tok)
                              (count (Counter (tokens_of src)) tok))
            (elements (alphabet_of tokens_of src tar))).

(** The two counts of every token of the alphabet, in iteration order. *)
Definition count_pairs {Str Token : Type} `{Countable Token}
    (tokens_of : Str → list Token) (src tar : Str) : list (nat * nat) :=
  map (λ tok, (count (Counter (tokens_of tar)) tok,
               count (Counter (tokens_of src)) tok))
      (elements (alphabet_of tokens_of src tar)).

(** The default scheme: character 2-grams, no boundary markers. *)
Definition bigrams : string → list string :=
  QGrams.tokenize 2 None.

(** Character 2-grams with a start marker [$] and a stop marker [#]. *)
Definition marked_bigrams : string → list string :=
  QGrams.tokenize 2 (Some ("$"%char, "#"%char)).

(** * The Millar combinator in binary64

    The same program with Python's [float] as the binary64 numbers of the
    machine ([PrimFloat]).  The counts of a [Counter] are integers that
    are not negative ([N]); an integer operand of a float operation is
    converted first, exactly as long as it is below [2^53], and the integer
    0 that [score], [src_val] and [tar_val] start from behaves in a sum as
    the float 0.0.  Counts from [2^53] on, which no string in memory
    reaches, are outside this model.  [math.log] is the logarithm of the
    C library, a parameter.  The order in which the loop enumerates
    [set(src_tok.keys() | tar_tok.keys())] is a parameter as well: a
    function of the tokens behind the two mappings. *)

Module Py64.

(** The conversion of an [int] operand to [float]. *)
Definition of_int (c : N) : float :=
  PrimFloat.of_uint63 (Uint63.of_Z (Z.of_N c)).

(** [a / b] on two [int]s: raises on a zero divisor. *)
Definition truediv (a b : N) : result float :=
  if N.eqb b 0 then Raise ZeroDivisionError
  else Ok (PrimFloat.div (of_int a) (of_int b)).

(** [x / b] with a float numerator and an [int] divisor. *)
Definition fdiv (x : float) (b : N) : result float :=
  if N.eqb b 0 then Raise ZeroDivisionError
  else Ok (PrimFloat.div x (of_int b)).

(** [math.log x]: a math domain error when [x <= 0], the logarithm of the
    C library otherwise. *)
Definition log (libm_log : float → float) (x : float) : result float :=
  if PrimFloat.leb x 0%float then Raise ValueError else Ok (libm_log x).

(** The values [math.log] returns, with the logarithm of the GNU C
    library, at the arguments that the examples below reach: 2, 1, 1/2,
    1/3, 2/3, and the two quotients of the counts 100000002 and 100000000
    by their sum.  No statement evaluates it anywhere else. *)
Definition libm_log (x : float) : float :=
  if PrimFloat.eqb x 2%float then 0x1.62e42fefa39efp-1%float
  else if PrimFloat.eqb x 1%float then 0%float
  else if PrimFloat.eqb x 0x1p-1%float then (-0x1.62e42fefa39efp-1)%float
  else if PrimFloat.eqb x 0x1.5555555555555p-2%float
       then (-0x1.193ea7aad030bp+0)%float
  else if PrimFloat.eqb x 0x1.5555555555555p-1%float
       then (-0x1.9f323ecbf984dp-2)%float
  else if PrimFloat.eqb x 0x1.0000002af31dcp-1%float
       then (-0x1.62e42f99bd638p-1)%float
  else if PrimFloat.eqb x 0x1.ffffffaa19c48p-2%float
       then (-0x1.62e4304589da8p-1)%float
  else PrimFloat.nan.

(** [math.log(2)] in binary64. *)
Definition log_2 : float := 0x1.62e42fefa39efp-1%float.

End Py64.

Section Millar64.
Context {Str Token : Type} `{Countable Token}.

Variable libm_log : float → float.

(** The order in which [set(src_tok.keys() | tar_tok.keys())] is
    enumerated, given the tokens behind [src_tok] and behind [tar_tok]. *)
Variable enum : list Token → list Token → list Token.

Variable tokens_of : Str → list Token.

(** [c * log(c/n_k)] behind its guard [if c:]; 0 when the guard fails. *)
Definition side_val64 (c n_k : N) : result float :=
  if N.eqb c 0 then mret 0%float
  else
    q ← Py64.truediv c n_k;
    l ← Py64.log libm_log q;
    mret (PrimFloat.mul (Py64.of_int c) l).

(** One pass through the loop body for a token counted [s] times by
    [src_tok] and [t] times by [tar_tok]. *)
Definition term64 (log2 : float) (s t : N) : result float :=
  let n_k := (s + t)%N in
  src_val ← side_val64 s n_k;
  tar_val ← side_val64 t n_k;
  Py64.fdiv
    (PrimFloat.add (PrimFloat.add src_val tar_val)
                   (PrimFloat.mul (Py64.of_int n_k) log2))
    n_k.

(** The same pass for the token [tok] of the two mappings: the amount
    added to [score]. *)
Definition contribution64 (src_tok tar_tok : gmap Token nat) (log2 : float)
    (tok : Token) : result float :=
  term64 log2 (N.of_nat (count src_tok tok)) (N.of_nat (count tar_tok tok)).

(** [for tok in alphabet: ...; score += ...]. *)
Fixpoint accumulate64 (src_tok tar_tok : gmap Token nat) (log2 : float)
    (score : float) (alphabet : list Token) : result float :=
  match alphabet with
  | [] => mret score
  | tok :: rest =>
      c ← contribution64 src_tok tar_tok log2 tok;
      accumulate64 src_tok tar_tok log2 (PrimFloat.add score c) rest
  end.

(** [if score > 0: return score] then [return 0.0]. *)
Definition clamp64 (score : float) : float :=
  if PrimFloat.ltb 0%float score then score else 0%float.

(** [Millar.dist] up to the final test. *)
Definition score64 (src tar : Str) : result float :=
  let '(_src_tokens, _tar_tokens) := _tokenize tokens_of src tar in
  let tar_tok := _src_tokens in
  let src_tok := _tar_tokens in
  let alphabet := enum (tokens_of tar) (tokens_of src) in
  log2 ← Py64.log libm_log 2%float;
  accumulate64 src_tok tar_tok log2 0%float alphabet.

(** [Millar.dist]. *)
Definition dist64 (src tar : Str) : result float :=
  score ← score64 src tar;
  mret (clamp64 score).

(** [enum] enumerates the alphabet of the two strings: every token of the
    union once. *)
Definition enumerates (src tar : Str) : Prop :=
  enum (tokens_of tar) (tokens_of src)
  ≡ₚ elements (alphabet_of tokens_of src tar).

End Millar64.

(** The distinct elements of [l] that are not in [seen], each at its first
    occurrence. *)
Fixpoint first_seen {Token : Type} `{EqDecision Token}
    (seen l : list Token) : list Token :=
  match l with
  | [] => []
  | tok :: rest =>
      if decide (tok ∈ seen) then first_seen seen rest
      else tok :: first_seen (tok :: seen) rest
  end.

(** Two orders a set may be enumerated in: the keys of the left operand of
    [|] and then the new keys of the right one, or the other way round. *)
Definition left_then_right {Token : Type} `{EqDecision Token}
    (l r : list Token) : list Token :=
  first_seen [] (l ++ r).

Definition right_then_left {Token : Type} `{EqDecision Token}
    (l r : list Token) : list Token :=
  first_seen [] (r ++ l).

(** The enumeration that [elements] gives, the same for both calls. *)
Definition canonical_order {Token : Type} `{Countable Token}
    (l r : list Token) : list Token :=
  elements (dom (Counter l) ∪ dom (Counter r)).

(** The value of [score] after [k] passes that each add [x], from 0. *)
Definition add_times (k : nat) (x : float) : float :=
  Nat.iter k (λ score, PrimFloat.add score x) 0%float.

(** Whether a pass returned, and whether it returned the number 0.0. *)
Definition returns (r : result float) : bool :=
  match r with
  | Ok _ => true
  | Raise _ => false
  end.

Definition returns_zero (r : result float) : bool :=
  match r with
  | Ok x => match Prim2SF x with S754_zero false => true | _ => false end
  | Raise _ => false
  end.

(** [p] holds of the [k] counts from [c] on. *)
Fixpoint all_from (p : N → bool) (c : N) (k : nat) : bool :=
  match k with
  | O => true
  | S k' => p c && all_from p (N.succ c) k'
  end.

(** * Scandinavian phonetic encoders (abydos.phonetic._sv)

    A Python [str] is a list of code points ([list N]).  The built-in
    string operations the encoders use are modelled in [PyStr]; upper-casing,
    Unicode normalisation and [_delete_consecutive_repeats] (a method of the
    base class) are parameters of the encoders. *)

Abbreviation str := (list N).

(** ** Code points *)

Module Chr.

(** The code points of an ASCII literal. *)
Definition u (s : string) : str :=
  map N_of_ascii (list_ascii_of_string s).

(** The code point of an ASCII character. *)
Definition c (a : ascii) : N := N_of_ascii a.

Definition A_grave : N := 192.
Definition A_uml : N := 196.
Definition A_ring : N := 197.
Definition AE : N := 198.
Definition Eth : N := 208.
Definition O_uml : N := 214.
Definition O_slash : N := 216.
Definition U_uml : N := 220.
Definition Thorn : N := 222.
Definition Eszett : N := 223.

End Chr.

(** ** Built-in string operations *)

Module PyStr.

(** [a == b] on two strings. *)
Definition eqb (a b : str) : bool := bool_decide (a = b).

(** [w.startswith(p)]. *)
Fixpoint startswith (w p : str) : bool :=
  match p, w with
  | [], _ => true
  | _ :: _, [] => false
  | a :: p', b :: w' => N.eqb a b && startswith w' p'
  end.

(** [p in w] for two strings: [p] occurs in [w] as a substring. *)
Fixpoint contains (p w : str) : bool :=
  startswith w p ||
  match w with
  | [] => false
  | _ :: w' => contains p w'
  end.

(** [w.replace(old, new)] for a non-empty [old]: the occurrences of [old]
    are found left to right and do not overlap.  [skip] counts the
    characters of a matched occurrence still to be passed over. *)
Fixpoint replace_from (old new : str) (skip : nat) (w : str) : str :=
  match w with
  | [] => []
  | ch :: w' =>
      match skip with
      | S k => replace_from old new k w'
      | O =>
          if startswith w old
          then new ++ replace_from old new (length old - 1) w'
          else ch :: replace_from old new 0 w'
      end
  end.

Definition replace (old new w : str) : str := replace_from old new 0 w.

(** [w.translate(table)] for a table from code points to one-character
    strings: a character with an entry is replaced, the others are kept. *)
Definition translate (table : list (N * N)) (w : str) : str :=
  map (λ ch, default ch (snd <$> find (λ e, N.eqb (fst e) ch) table)) w.

(** [dict(zip(keys, values))] as an association list. *)
Definition table_of (keys values : str) : list (N * N) := zip keys values.

(** The characters [str.split()] treats as white space. *)
Definition isspace (ch : N) : bool :=
  ((9 <=? ch) && (ch <=? 13) || (28 <=? ch) && (ch <=? 32)
   || (ch =? 133) || (ch =? 160) || (ch =? 5760)
   || (8192 <=? ch) && (ch <=? 8202)
   || (ch =? 8232) || (ch =? 8233) || (ch =? 8239) || (ch =? 8287)
   || (ch =? 12288))%N.

(** [w.split()]: the maximal runs of characters that are not white space.
    [cur] is the run being read. *)
Fixpoint split_from (cur : str) (w : str) : list str :=
  match w with
  | [] => match cur with [] => [] | _ => [cur] end
  | ch :: w' =>
      if isspace ch
      then match cur with
           | [] => split_from [] w'
           | _ => cur :: split_from [] w'
           end
      else split_from (cur ++ [ch]) w'
  end.

Definition split (w : str) : list str := split_from [] w.

(** An index of a slice, as Python resolves it for a string of length
    [len]: negative indices count from the end, and the result is clipped
    to the string. *)
Definition clip (len : nat) (i : Z) : nat :=
  if (i <? 0)%Z then Z.to_nat (Z.max 0 (Z.of_nat len + i))
  else Nat.min len (Z.to_nat i).

(** [w[i:j]]. *)
Definition slice (i j : Z) (w : str) : str :=
  let a := clip (length w) i in
  let b := clip (length w) j in
  take (b - a) (drop a w).

(** [w[i:]]. *)
Definition slice_from (i : Z) (w : str) : str :=
  drop (clip (length w) i) w.

(** [w[:j]]. *)
Definition slice_to (j : Z) (w : str) : str :=
  take (clip (length w) j) w.

(** [s in chars] for a string [s] and a set of one-character strings. *)
Definition in_chars (s : str) (chars : list N) : bool :=
  match s with
  | [ch] => bool_decide (ch ∈ chars)
  | _ => false
  end.

(** [s in strings] for a tuple or a set of strings. *)
Definition in_strs (s : str) (strings : list str) : bool :=
  bool_decide (s ∈ strings).

End PyStr.

(** ** The base class

    [_delete_consecutive_repeats] belongs to the base class of the
    encoders, which is not among the sources.  The encoders take it as a
    parameter; [delete_repeats] does what the name of the method says and
    instantiates the parameter where a concrete function is needed. *)

Module Phonetic.

(** Keeps one character of every run of equal characters. *)
Fixpoint delete_repeats (w : str) : str :=
  match w with
  | [] => []
  | a :: w' =>
      match w' with
      | [] => [a]
      | b :: _ => if N.eqb a b then delete_repeats w'
                  else a :: delete_repeats w'
      end
  end.

(** No two neighbours of [w] are equal. *)
Fixpoint no_repeat (w : str) : bool :=
  match w with
  | [] => true
  | a :: w' =>
      match w' with
      | [] => true
      | b :: _ => negb (N.eqb a b) && no_repeat w'
      end
  end.

End Phonetic.

(** ** Norphone *)

Module Norphone.
Import Chr.

Definition _uc_v_set : list N :=
  u "AEIOUY" ++ [A_ring; AE; O_slash; A_uml; O_uml].

(** The replacement tables, keyed by the length of the pattern. *)
Definition _replacements : list (nat * list (str * str)) :=
  [ (4, [(u "SKEI", u "X")]);
    (3, [(u "SKJ", u "X"); (u "KEI", u "X")]);
    (2, [(u "CH", u "K"); (u "CK", u "K"); (u "GJ", u "J"); (u "GH", u "K");
         (u "HG", u "K"); (u "HJ", u "J"); (u "HL", u "L"); (u "HR", u "R");
         (u "KJ", u "X"); (u "KI", u "X"); (u "LD", u "L"); (u "ND", u "N");
         (u "PH", u "F"); (u "TH", u "T"); (u "SJ", u "X")]);
    (1, [(u "W", u "V"); (u "X", u "KS"); (u "Z", u "S"); (u "D", u "T");
         (u "G", u "K")]) ].

(** [d[key]] guarded by [key in d], for a dictionary on strings. *)
Definition lookup (key : str) (d : list (str * str)) : option str :=
  snd <$> find (λ e, PyStr.eqb (fst e) key) d.

(** [sorted(self._replacements, reverse=True)]: the pattern lengths,
    longest first. *)
Definition lengths : list nat := [4; 3; 2; 1].

(** [self._replacements[length]]. *)
Definition table (length : nat) : list (str * str) :=
  default [] (snd <$> find (λ e, Nat.eqb (fst e) length) _replacements).

(** The inner [for length in ...] with its [break]: the first length, from
    the longest, whose slice at [pos] has a replacement, and that
    replacement. *)
Fixpoint first_match (word : str) (pos : nat) (ls : list nat)
    : option (nat * str) :=
  match ls with
  | [] => None
  | length :: ls' =>
      match lookup (PyStr.slice (Z.of_nat pos) (Z.of_nat (pos + length)) word)
                   (table length) with
      | Some out => Some (length, out)
      | None => first_match word pos ls'
      end
  end.

(** [for pos, char in enumerate(word)], from position [pos] on; [chars] is
    what is left of [word] to enumerate. *)
Fixpoint loop (word : str) (chars : str) (pos : nat) (code : str)
    (skip : nat) : str :=
  match chars with
  | [] => code
  | char :: chars' =>
      match skip with
      | S skip' => loop word chars' (S pos) code skip'
      | O =>
          match first_match word pos lengths with
          | Some (length, out) =>
              loop word chars' (S pos) (code ++ out) (length - 1)
          | None =>
              if Nat.eqb pos 0 || negb (bool_decide (char ∈ _uc_v_set))
              then loop word chars' (S pos) (code ++ [char]) 0
              else loop word chars' (S pos) code 0
          end
      end
  end.

(** The first [if] chain: the code and the skip the word starts with. *)
Definition initial (word : str) : str * nat :=
  if PyStr.eqb (PyStr.slice 0 2 word) (u "AA") then ([A_ring], 2)
  else if PyStr.eqb (PyStr.slice 0 2 word) (u "GI") then (u "J", 2)
  else if PyStr.eqb (PyStr.slice 0 3 word) (u "SKY") then (u "X", 3)
  else if PyStr.eqb (PyStr.slice 0 2 word) (u "EI") then ([AE], 2)
  else if PyStr.eqb (PyStr.slice 0 2 word) (u "KY") then (u "X", 2)
  else if PyStr.eqb (PyStr.slice_to 1 word) (u "C") then (u "K", 1)
  else if PyStr.eqb (PyStr.slice_to 1 word) [A_uml] then ([AE], 1)
  else if PyStr.eqb (PyStr.slice_to 1 word) [O_uml] then ([O_slash], 1)
  else ([], 0).

(** The second [if]/[elif]: a final DT becomes T, a final D after a vowel
    goes together with that vowel. *)
Definition final (word : str) : str :=
  if PyStr.eqb (PyStr.slice_from (-2) word) (u "DT")
  then PyStr.slice_to (-2) word ++ u "T"
  else if PyStr.in_chars (PyStr.slice (-2) (-1) word) _uc_v_set
          && PyStr.eqb (PyStr.slice_from (-1) word) (u "D")
  then PyStr.slice_to (-2) word
  else word.

(** [encode] from the upper-cased word to the code before the consecutive
    repeats are deleted. *)
Definition code_of (word : str) : str :=
  let '(code, skip) := initial word in
  let word := final word in
  loop word word 0 code skip.

Section Encode.

(** [str.upper]. *)
Variable upper : str → str.

(** [self._delete_consecutive_repeats], a method of the base class. *)
Variable _delete_consecutive_repeats : str → str.

(** [Norphone.encode]. *)
Definition encode (word : str) : str :=
  let word := upper word in
  let code := code_of word in
  _delete_consecutive_repeats code.

(** [norphone]: the wrapper. *)
Definition norphone (word : str) : str := encode word.

End Encode.

End Norphone.

(** ** SfinxBis *)

Module SfinxBis.
Import Chr.

Definition _adelstitler : list str :=
  [ u " DE LA "; u " DE LAS "; u " DE LOS "; u " VAN DE "; u " VAN DEN ";
    u " VAN DER "; u " VON DEM "; u " VON DER "; u " AF "; u " AV ";
    u " DA "; u " DE "; u " DEL "; u " DEN "; u " DES "; u " DI "; u " DO ";
    u " DON "; u " DOS "; u " DU "; u " E "; u " IN "; u " LA "; u " LE ";
    u " MAC "; u " MC "; u " VAN "; u " VON "; u " Y "; u " S:T " ].

Definition _harde_vokaler : list N := u "AOU" ++ [A_ring].
Definition _mjuka_vokaler : list N := u "EIY" ++ [A_uml; O_uml].
Definition _uc_c_set : list N := u "BCDFGHJKLMNPQRSTVWXZ".
Definition _uc_set : list N :=
  u "ABCDEFGHIJKLMNOPQRSTUVWXYZ" ++ [A_uml; A_ring; O_uml].

(** [dict(zip((ord(_) for _ in 'BCDFGHJKLMNPQRSTVZAOUÅEIYÄÖ'),
    '123729224551268378999999999'))]. *)
Definition _trans : list (N * N) :=
  PyStr.table_of
    (u "BCDFGHJKLMNPQRSTVZAOU" ++ [A_ring] ++ u "EIY" ++ [A_uml; O_uml])
    (u "123729224551268378999999999").

(** [dict(zip((ord(_) for _ in 'WZÀÁÂÃÆÇÈÉÊËÌÍÎÏÑÒÓÔÕØÙÚÛÜÝ'),
    'VSAAAAÄCEEEEIIIINOOOOÖUUUYY'))]. *)
Definition _substitutions : list (N * N) :=
  PyStr.table_of
    (u "WZ" ++ [192; 193; 194; 195; 198; 199; 200; 201; 202; 203; 204; 205;
                206; 207; 209; 210; 211; 212; 213; 216; 217; 218; 219; 220;
                221]%N)
    (u "VSAAAA" ++ [A_uml] ++ u "CEEEEIIIINOOOO" ++ [O_uml] ++ u "UUUYY").

(** The [while adelstitel in word] loop; every pass shortens the word, so
    [length word] passes are enough ([strip_title_done] below). *)
Fixpoint strip_title (fuel : nat) (adelstitel word : str) : str :=
  match fuel with
  | O => word
  | S fuel' =>
      if PyStr.contains adelstitel word
      then strip_title fuel' adelstitel
             (PyStr.replace adelstitel (u " ") word)
      else word
  end.

(** One pass of [for adelstitel in self._adelstitler]. *)
Definition remove_title (word adelstitel : str) : str :=
  let word := strip_title (length word) adelstitel word in
  if PyStr.startswith word (PyStr.slice_from 1 adelstitel)
  then PyStr.slice_from (Z.of_nat (length adelstitel) - 1) word
  else word.

(** One of the two loops over a set of vowels in [_foersvensker], for a
    given iteration order of the set. *)
Definition soften (order : list N) (lokal_ordet : str) : str :=
  foldl (λ w i,
           let w := PyStr.replace [i; U_uml] (i :: u "J") w in
           let w := PyStr.replace (i :: u "Y") (i :: u "J") w in
           PyStr.replace (i :: u "I") (i :: u "J") w)
        lokal_ordet order.

(** [_koda_foersta_ljudet]. *)
Definition _koda_foersta_ljudet (lokal_ordet : str) : str :=
  let w := lokal_ordet in
  if PyStr.in_chars (PyStr.slice 0 1 w) _mjuka_vokaler
     || PyStr.in_chars (PyStr.slice 0 1 w) _harde_vokaler
  then u "$" ++ PyStr.slice_from 1 w
  else if PyStr.in_strs (PyStr.slice 0 2 w) [u "DJ"; u "GJ"; u "HJ"; u "LJ"]
  then u "J" ++ PyStr.slice_from 2 w
  else if PyStr.eqb (PyStr.slice 0 1 w) (u "G")
          && PyStr.in_chars (PyStr.slice 1 2 w) _mjuka_vokaler
  then u "J" ++ PyStr.slice_from 1 w
  else if PyStr.eqb (PyStr.slice 0 1 w) (u "Q")
  then u "K" ++ PyStr.slice_from 1 w
  else if PyStr.eqb (PyStr.slice 0 2 w) (u "CH")
          && PyStr.in_chars (PyStr.slice 2 3 w)
               (_mjuka_vokaler ++ _harde_vokaler)
  then u "#" ++ PyStr.slice_from 2 w
  else if PyStr.eqb (PyStr.slice 0 1 w) (u "C")
          && PyStr.in_chars (PyStr.slice 1 2 w) _harde_vokaler
  then u "K" ++ PyStr.slice_from 1 w
  else if PyStr.eqb (PyStr.slice 0 1 w) (u "C")
          && PyStr.in_chars (PyStr.slice 1 2 w) _uc_c_set
  then u "K" ++ PyStr.slice_from 1 w
  else if PyStr.eqb (PyStr.slice 0 1 w) (u "X")
  then u "S" ++ PyStr.slice_from 1 w
  else if PyStr.eqb (PyStr.slice 0 1 w) (u "C")
          && PyStr.in_chars (PyStr.slice 1 2 w) _mjuka_vokaler
  then u "S" ++ PyStr.slice_from 1 w
  else if PyStr.in_strs (PyStr.slice 0 3 w) [u "SKJ"; u "STJ"; u "SCH"]
  then u "#" ++ PyStr.slice_from 3 w
  else if PyStr.in_strs (PyStr.slice 0 2 w) [u "SH"; u "KJ"; u "TJ"; u "SJ"]
  then u "#" ++ PyStr.slice_from 2 w
  else if PyStr.eqb (PyStr.slice 0 2 w) (u "SK")
          && PyStr.in_chars (PyStr.slice 2 3 w) _mjuka_vokaler
  then u "#" ++ PyStr.slice_from 2 w
  else if PyStr.eqb (PyStr.slice 0 1 w) (u "K")
          && PyStr.in_chars (PyStr.slice 1 2 w) _mjuka_vokaler
  then u "#" ++ PyStr.slice_from 1 w
  else w.

Section Encode.

(** [str.upper] and [unicode_normalize('NFC', _)]. *)
Variable upper nfc : str → str.

(** [self._delete_consecutive_repeats], a method of the base class. *)
Variable _delete_consecutive_repeats : str → str.

(** The order in which a [for] loop enumerates a set, given the elements
    of the set. *)
Variable iter : list N → list N.

(** [_foersvensker]. *)
Definition _foersvensker (lokal_ordet : str) : str :=
  let w := lokal_ordet in
  let w := PyStr.replace (u "STIERN") (u "STJ" ++ [A_uml] ++ u "RN") w in
  let w := PyStr.replace (u "HIE") (u "HJ") w in
  let w := PyStr.replace (u "SI" ++ [O_uml]) (u "SJ" ++ [O_uml]) w in
  let w := PyStr.replace (u "SCH") (u "SH") w in
  let w := PyStr.replace (u "QU") (u "KV") w in
  let w := PyStr.replace (u "IO") (u "JO") w in
  let w := PyStr.replace (u "PH") (u "F") w in
  let w := soften (iter _harde_vokaler) w in
  let w := soften (iter _mjuka_vokaler) w in
  let w :=
    if PyStr.contains (u "H") w
    then foldl (λ w i, PyStr.replace (u "H" ++ [i]) [i] w) w
               (iter _uc_c_set)
    else w in
  let w := PyStr.translate _substitutions w in
  let w := PyStr.replace [Eth] (u "ETH") w in
  let w := PyStr.replace [Thorn] (u "TH") w in
  let w := PyStr.replace [Eszett] (u "SS") w in
  w.

(** Steps 1 and 2 of [encode] and the split into words. *)
Definition words_of (word : str) : list str :=
  let word := nfc (upper word) in
  let word := PyStr.replace [Eszett] (u "SS") word in
  let word := PyStr.replace (u "-") (u " ") word in
  let word := foldl remove_title word _adelstitler in
  PyStr.split word.

(** Steps 8 to 11 of [encode]: from the words without their first
    character to the digits. *)
Definition digits_of (rest : list str) : list str :=
  let rest := map (PyStr.replace (u "DT") (u "T")) rest in
  let rest := map (PyStr.replace (u "X") (u "KS")) rest in
  let rest :=
    foldl (λ rest vokal,
             map (PyStr.replace (u "C" ++ [vokal]) (u "8" ++ [vokal])) rest)
          rest (iter _mjuka_vokaler) in
  let rest := map (PyStr.translate _trans) rest in
  let rest := map _delete_consecutive_repeats rest in
  map (PyStr.replace (u "9") []) rest.

(** [SfinxBis.encode]. *)
Definition encode (word : str) (max_length : Z) : list str :=
  let ordlista := words_of word in
  let ordlista := map _delete_consecutive_repeats ordlista in
  match ordlista with
  | [] => [[]]
  | _ =>
      let ordlista := map _foersvensker ordlista in
      let ordlista :=
        map (filter (λ ch, ch ∈ _uc_set)) ordlista in
      let ordlista := map _koda_foersta_ljudet ordlista in
      let rest := map (PyStr.slice_from 1) ordlista in
      let rest := digits_of rest in
      let ordlista :=
        zip_with (λ first rest, first ++ rest)
                 (map (PyStr.slice 0 1) ordlista) rest in
      if (0 <? max_length)%Z
      then map (PyStr.slice_to max_length) ordlista
      else ordlista
  end.

(** [sfinxbis]: the wrapper, with its default [max_length=-1]. *)
Definition sfinxbis (word : str) (max_length : option Z) : list str :=
  encode word (default (-1)%Z max_length).

End Encode.

(** Two iteration orders of the sets: the order in which the source
    writes the elements, and the same with the soft vowels enumerated from
    Y. *)
Definition written_order (elements : list N) : list N := elements.

Definition soft_from_Y (elements : list N) : list N :=
  if decide (elements = _mjuka_vokaler)
  then u "YEI" ++ [A_uml; O_uml]
  else elements.

End SfinxBis.

(** * Properties *)

(** ** The tokenizer and the counters on literal strings *)

Example bigrams_cat : bigrams "cat" = ["ca"; "at"]%string.
Proof. reflexivity. Qed.

Example marked_bigrams_cat :
  marked_bigrams "cat" = ["$c"; "ca"; "at"; "t#"]%string.
Proof. reflexivity. Qed.

Example bigrams_short : bigrams "a" = ["a"]%string.
Proof. reflexivity. Qed.

Example tokenize_empty q start_stop : QGrams.tokenize q start_stop "" = [].
Proof. reflexivity. Qed.

Example Counter_repeats :
  count (Counter (bigrams "aaab")) "aa"%string = 2
  ∧ count (Counter (bigrams "aaab")) "ab"%string = 1
  ∧ count (Counter (bigrams "aaab")) "zz"%string = 0.
Proof. vm_compute. done. Qed.

(** ** Counters hold positive counts for exactly the tokens seen *)

Section CounterFacts.
Context {Token : Type} `{Countable Token}.
Implicit Types (c : gmap Token nat) (l : list Token) (t : Token).

Lemma count_incr_lookup c t u :
  <[t := count c t + 1]> c !! u
  = if decide (t = u) then Some (count c t + 1) else c !! u.
Proof. apply lookup_insert. Qed.

Lemma foldl_incr_positive l : ∀ c,
  positive_counts c →
  positive_counts (foldl (λ c tok, <[tok := count c tok + 1]> c) c l).
Proof.
  induction l as [|tok l IH]; intros c Hc; simpl; [exact Hc|].
  apply IH. intros t n. rewrite count_incr_lookup.
  case_decide; [intros [= <-]; lia | apply Hc].
Qed.

Lemma foldl_incr_dom l : ∀ c,
  dom (foldl (λ c tok, <[tok := count c tok + 1]> c) c l)
  = dom c ∪ list_to_set l.
Proof.
  induction l as [|tok l IH]; intros c; simpl.
  - by rewrite (right_id_L ∅ (∪)).
  - rewrite IH, dom_insert_L.
    by rewrite (comm_L (∪) {[tok]} (dom c)), <- (assoc_L (∪)).
Qed.

Lemma Counter_positive l : positive_counts (Counter l).
Proof. apply foldl_incr_positive. intros t n. by rewrite lookup_empty. Qed.

Lemma dom_Counter l : dom (Counter l) = list_to_set l.
Proof.
  unfold Counter. rewrite foldl_incr_dom, dom_empty_L.
  apply (left_id_L ∅ (∪)).
Qed.

Lemma elem_of_dom_Counter l t : t ∈ dom (Counter l) ↔ t ∈ l.
Proof. rewrite dom_Counter. apply elem_of_list_to_set. Qed.

Lemma count_not_in_dom c t : t ∉ dom c → count c t = 0.
Proof.
  intros Hn. unfold count.
  by rewrite (proj1 (not_elem_of_dom c t) Hn).
Qed.

Lemma count_in_dom c t : positive_counts c → t ∈ dom c → 0 < count c t.
Proof.
  intros Hc [n Hn]%elem_of_dom. unfold count. rewrite Hn. simpl.
  by apply (Hc t).
Qed.

Lemma count_pos_in_dom c t : 0 < count c t → t ∈ dom c.
Proof.
  unfold count. intros Hpos. apply elem_of_dom.
  destruct (c !! t); [eauto | simpl in Hpos; lia].
Qed.

(** Every token of the union of two key sets is counted at least once. *)
Lemma divisor_positive c1 c2 t :
  positive_counts c1 → positive_counts c2 →
  t ∈ dom c1 ∪ dom c2 → 0 < count c1 t + count c2 t.
Proof.
  intros H1 H2 [Hin|Hin]%elem_of_union.
  - pose proof (count_in_dom c1 t H1 Hin). lia.
  - pose proof (count_in_dom c2 t H2 Hin). lia.
Qed.

End CounterFacts.

(** ** The primitives do not raise where the program calls them *)

Section Primitives.
Local Open Scope R_scope.

Lemma log_2_ok : Py.log 2 = Ok (ln 2).
Proof. unfold Py.log. destruct (Rlt_dec 0 2) as [_|Hn]; [done | lra]. Qed.

Lemma ln_2_pos : 0 < ln 2.
Proof. pose proof ln_lt_2. lra. Qed.

Lemma truediv_ok a b : (0 < b)%nat → Py.truediv a b = Ok (INR a / INR b).
Proof. intros Hb. destruct b; [lia | done]. Qed.

Lemma fdiv_ok x b : (0 < b)%nat → Py.fdiv x b = Ok (x / INR b).
Proof. intros Hb. destruct b; [lia | done]. Qed.

Lemma log_ok x : 0 < x → Py.log x = Ok (ln x).
Proof. intros Hx. unfold Py.log. by destruct (Rlt_dec 0 x). Qed.

(** The quotient handed to [log] is positive as soon as the count is. *)
Lemma ratio_positive c n_k : (0 < c)%nat → (0 < n_k)%nat → 0 < INR c / INR n_k.
Proof. intros Hc Hn. apply Rdiv_lt_0_compat; by apply lt_0_INR. Qed.

Lemma side_val_ok c n_k :
  (0 < n_k)%nat → side_val c n_k = Ok (side_real c n_k).
Proof.
  intros Hn. unfold side_val, side_real.
  case_decide; [done|].
  rewrite truediv_ok by done. simpl.
  rewrite log_ok by (apply ratio_positive; [lia | done]). done.
Qed.

End Primitives.

(** ** The loop computes the sum of the closed-form terms *)

Section LoopFacts.
Context {Token : Type} `{Countable Token}.
Implicit Types (src_tok tar_tok : gmap Token nat) (l : list Token).
Local Open Scope R_scope.

Lemma contribution_ok src_tok tar_tok tok :
  (0 < count src_tok tok + count tar_tok tok)%nat →
  contribution src_tok tar_tok (ln 2) tok
  = Ok (term_real (count src_tok tok) (count tar_tok tok)).
Proof.
  intros Hn. unfold contribution, term_real.
  rewrite !side_val_ok by done. simpl.
  by rewrite fdiv_ok.
Qed.

Lemma accumulate_ok src_tok tar_tok l : ∀ score,
  (∀ tok, tok ∈ l → (0 < count src_tok tok + count tar_tok tok)%nat) →
  accumulate src_tok tar_tok (ln 2) score l
  = Ok (score
        + Rsum (map (λ tok, term_real (count src_tok tok) (count tar_tok tok)) l)).
Proof.
  induction l as [|tok l IH]; intros score Hl; simpl.
  - unfold mret, result_ret. f_equal. lra.
  - rewrite contribution_ok by (apply Hl; left). simpl.
    rewrite IH by (intros t Ht; apply Hl; by right).
    f_equal. lra.
Qed.

Lemma Rsum_app (xs ys : list R) : Rsum (xs ++ ys) = Rsum xs + Rsum ys.
Proof. induction xs as [|x xs IH]; simpl; [lra | rewrite IH; lra]. Qed.

Lemma Rsum_Permutation (xs ys : list R) : xs ≡ₚ ys → Rsum xs = Rsum ys.
Proof. induction 1; simpl; lra. Qed.

Lemma Rsum_const {A} (f : A → R) (r : R) (xs : list A) :
  (∀ x, x ∈ xs → f x = r) → Rsum (map f xs) = r * INR (length xs).
Proof.
  induction xs as [|x xs IH]; intros Hf.
  - simpl. lra.
  - cbn [map Rsum foldr length]. rewrite S_INR.
    fold (Rsum (map f xs)).
    rewrite IH by (intros y Hy; apply Hf; by right).
    rewrite (Hf x) by left. lra.
Qed.

Lemma Rsum_nonneg {A} (f : A → R) (xs : list A) :
  (∀ x, x ∈ xs → 0 <= f x) → 0 <= Rsum (map f xs).
Proof.
  induction xs as [|x xs IH]; intros Hf; simpl; [lra|].
  pose proof (Hf x ltac:(left)).
  pose proof (IH (λ y Hy, Hf y ltac:(by right))).
  fold (Rsum (map f xs)). lra.
Qed.

End LoopFacts.

(** ** The per-token term: symmetry, the two exact cases, Gibbs' bound *)

Section TermFacts.
Local Open Scope R_scope.

Lemma ln_le_pred z : 0 < z → ln z <= z - 1.
Proof.
  intros Hz. destruct (Req_dec z 1) as [->|Hne].
  - rewrite ln_1. lra.
  - pose proof (exp_ineq1 (ln z) (ln_neq_0 z Hne Hz)) as Hlt.
    rewrite exp_ln in Hlt by done. lra.
Qed.

Lemma ln_lt_pred z : 0 < z → z ≠ 1 → ln z < z - 1.
Proof.
  intros Hz Hne.
  pose proof (exp_ineq1 (ln z) (ln_neq_0 z Hne Hz)) as Hlt.
  rewrite exp_ln in Hlt by done. lra.
Qed.

Lemma ln_half_share x y :
  0 < x → 0 < y → ln ((x + y) / (2 * x)) = - ln (x / (x + y)) - ln 2.
Proof.
  intros Hx Hy.
  replace ((x + y) / (2 * x)) with (/ (x / (x + y) * 2)) by (field; lra).
  assert (0 < x / (x + y)) by (apply Rdiv_lt_0_compat; lra).
  rewrite ln_Rinv by lra. rewrite ln_mult by lra. lra.
Qed.

Lemma share_bound x y :
  0 < x → 0 < y → (x - y) / 2 <= x * ln (x / (x + y)) + x * ln 2.
Proof.
  intros Hx Hy.
  assert (Hz : 0 < (x + y) / (2 * x)) by (apply Rdiv_lt_0_compat; lra).
  pose proof (ln_le_pred _ Hz) as Hle.
  rewrite ln_half_share in Hle by done.
  apply (Rmult_le_compat_l x) in Hle; [|lra].
  replace (x * ((x + y) / (2 * x) - 1)) with ((y - x) / 2) in Hle by (field; lra).
  lra.
Qed.

Lemma share_bound_strict x y :
  0 < x → 0 < y → x ≠ y → (x - y) / 2 < x * ln (x / (x + y)) + x * ln 2.
Proof.
  intros Hx Hy Hne.
  assert (Hz : 0 < (x + y) / (2 * x)) by (apply Rdiv_lt_0_compat; lra).
  assert (Hz1 : (x + y) / (2 * x) ≠ 1).
  { intros Heq. apply Hne.
    apply (Rmult_eq_compat_r (2 * x)) in Heq.
    replace ((x + y) / (2 * x) * (2 * x)) with (x + y) in Heq by (field; lra).
    lra. }
  pose proof (ln_lt_pred _ Hz Hz1) as Hlt.
  rewrite ln_half_share in Hlt by done.
  apply (Rmult_lt_compat_l x) in Hlt; [|lra].
  replace (x * ((x + y) / (2 * x) - 1)) with ((y - x) / 2) in Hlt by (field; lra).
  lra.
Qed.

Lemma side_real_zero n_k : side_real 0 n_k = 0.
Proof. done. Qed.

Lemma side_real_pos c n_k :
  (0 < c)%nat → side_real c n_k = INR c * ln (INR c / INR n_k).
Proof. intros Hc. unfold side_real. case_decide; [lia | done]. Qed.

Lemma term_real_comm a b : term_real a b = term_real b a.
Proof.
  unfold term_real. rewrite (Nat.add_comm b a).
  f_equal. lra.
Qed.

(** A token counted on one side only adds [ln 2], whatever its count. *)
Lemma term_real_one_sided a : (0 < a)%nat → term_real a 0 = ln 2.
Proof.
  intros Ha. unfold term_real. rewrite Nat.add_0_r.
  rewrite side_real_zero, side_real_pos by done.
  pose proof (lt_0_INR a Ha).
  replace (INR a / INR a) with 1 by (field; lra).
  rewrite ln_1. field. lra.
Qed.

(** A token counted equally on both sides adds nothing. *)
Lemma term_real_balanced c : (0 < c)%nat → term_real c c = 0.
Proof.
  intros Hc. unfold term_real.
  rewrite side_real_pos by done.
  pose proof (lt_0_INR c Hc).
  rewrite plus_INR.
  replace (INR c / (INR c + INR c)) with (/ 2) by (field; lra).
  rewrite ln_Rinv by lra. field. lra.
Qed.

Lemma term_real_nonneg a b : (0 < a + b)%nat → 0 <= term_real a b.
Proof.
  intros Hn.
  destruct (decide (a = 0)%nat) as [->|Ha].
  { rewrite term_real_comm, term_real_one_sided by lia.
    pose proof ln_2_pos. lra. }
  destruct (decide (b = 0)%nat) as [->|Hb].
  { rewrite term_real_one_sided by lia. pose proof ln_2_pos. lra. }
  unfold term_real. rewrite !side_real_pos by lia.
  rewrite plus_INR.
  pose proof (lt_0_INR a ltac:(lia)) as Hx.
  pose proof (lt_0_INR b ltac:(lia)) as Hy.
  pose proof (share_bound _ _ Hx Hy) as H1.
  pose proof (share_bound _ _ Hy Hx) as H2.
  rewrite (Rplus_comm (INR b) (INR a)) in H2.
  apply Rmult_le_pos; [lra|].
  apply Rlt_le, Rinv_0_lt_compat. lra.
Qed.

Lemma term_real_pos a b : a ≠ b → 0 < term_real a b.
Proof.
  intros Hne.
  destruct (decide (a = 0)%nat) as [->|Ha].
  { rewrite term_real_comm, term_real_one_sided by lia. apply ln_2_pos. }
  destruct (decide (b = 0)%nat) as [->|Hb].
  { rewrite term_real_one_sided by lia. apply ln_2_pos. }
  unfold term_real. rewrite !side_real_pos by lia.
  rewrite plus_INR.
  pose proof (lt_0_INR a ltac:(lia)) as Hx.
  pose proof (lt_0_INR b ltac:(lia)) as Hy.
  assert (Hxy : INR a ≠ INR b) by (intros Heq; by apply INR_eq in Heq).
  pose proof (share_bound_strict _ _ Hx Hy Hxy) as H1.
  pose proof (share_bound _ _ Hy Hx) as H2.
  rewrite (Rplus_comm (INR b) (INR a)) in H2.
  apply Rmult_lt_0_compat; [lra|].
  apply Rinv_0_lt_compat. lra.
Qed.

End TermFacts.

(** ** The combinator as a whole *)

Section MillarFacts.
Context {Str Token : Type} `{Countable Token}.
Variable tokens_of : Str → list Token.
Implicit Types (src tar : Str) (tok : Token).
Local Open Scope R_scope.

Lemma alphabet_divisor src tar tok :
  tok ∈ alphabet_of tokens_of src tar →
  (0 < count (Counter (tokens_of tar)) tok
       + count (Counter (tokens_of src)) tok)%nat.
Proof. apply divisor_positive; apply Counter_positive. Qed.

Lemma alphabet_of_comm src tar :
  alphabet_of tokens_of src tar = alphabet_of tokens_of tar src.
Proof. unfold alphabet_of. simpl. apply union_comm_L. Qed.

Lemma elem_of_alphabet src tar tok :
  tok ∈ alphabet_of tokens_of src tar
  ↔ tok ∈ tokens_of src ∨ tok ∈ tokens_of tar.
Proof.
  unfold alphabet_of. simpl.
  rewrite elem_of_union, !elem_of_dom_Counter. tauto.
Qed.

(** The program never raises: the score is the sum of the closed forms. *)
Lemma score_of_ok src tar :
  score_of tokens_of src tar = Ok (score_real tokens_of src tar).
Proof.
  unfold score_of, score_real. cbn [_tokenize].
  rewrite log_2_ok. simpl.
  rewrite accumulate_ok.
  - f_equal. unfold alphabet_of. simpl. lra.
  - intros tok Htok%elem_of_elements. by apply alphabet_divisor.
Qed.

Lemma dist_ok src tar :
  dist tokens_of src tar = Ok (clamp (score_real tokens_of src tar)).
Proof. unfold dist. by rewrite score_of_ok. Qed.

Lemma score_real_nonneg src tar : 0 <= score_real tokens_of src tar.
Proof.
  apply Rsum_nonneg. intros tok Htok%elem_of_elements.
  apply term_real_nonneg. by apply alphabet_divisor.
Qed.

Lemma clamp_nonneg score : 0 <= clamp score.
Proof. unfold clamp. destruct (Rlt_dec 0 score); lra. Qed.

Lemma clamp_of_nonneg score : 0 <= score → clamp score = score.
Proof. unfold clamp. destruct (Rlt_dec 0 score); lra. Qed.

Lemma clamp_of_nonpos score : score <= 0 → clamp score = 0.
Proof. unfold clamp. destruct (Rlt_dec 0 score); lra. Qed.

(** Over the reals the iteration order of the alphabet does not matter;
    in binary64 it does. *)
Lemma accumulate_order (src_tok tar_tok : gmap Token nat) (l1 l2 : list Token) :
  l1 ≡ₚ l2 →
  (∀ tok, tok ∈ l1 → (0 < count src_tok tok + count tar_tok tok)%nat) →
  accumulate src_tok tar_tok (ln 2) 0 l1
  = accumulate src_tok tar_tok (ln 2) 0 l2.
Proof.
  intros Hp Hpos.
  rewrite !accumulate_ok; [|intros tok Htok; apply Hpos; by rewrite Hp|done].
  f_equal. f_equal. apply Rsum_Permutation. by apply fmap_Permutation.
Qed.

End MillarFacts.

(** ** Sums of non-negative terms, and when the distance vanishes *)

Section Vanishing.
Context {Str Token : Type} `{Countable Token}.
Variable tokens_of : Str → list Token.
Implicit Types (src tar : Str) (tok : Token).
Local Open Scope R_scope.

Lemma Rsum_pos {A} (f : A → R) (xs : list A) (x : A) :
  (∀ y, y ∈ xs → 0 <= f y) → x ∈ xs → 0 < f x → 0 < Rsum (map f xs).
Proof.
  intros Hf Hx Hfx.
  induction xs as [|y ys IH]; [by apply not_elem_of_nil in Hx|].
  cbn [map Rsum foldr]. fold (Rsum (map f ys)).
  pose proof (Rsum_nonneg f ys (λ z Hz, Hf z ltac:(by right))) as Hrest.
  apply elem_of_cons in Hx as [<-|Hx].
  - lra.
  - pose proof (Hf y ltac:(left)).
    pose proof (IH (λ z Hz, Hf z ltac:(by right)) Hx). lra.
Qed.

Lemma score_real_pairs src tar :
  score_real tokens_of src tar
  = Rsum (map (λ p, term_real p.1 p.2) (count_pairs tokens_of src tar)).
Proof. unfold score_real, count_pairs. by rewrite map_map. Qed.

(** Equal frequency mappings give an accumulated score of 0. *)
Lemma score_real_balanced src tar :
  (∀ tok, count (Counter (tokens_of src)) tok
          = count (Counter (tokens_of tar)) tok) →
  score_real tokens_of src tar = 0.
Proof.
  intros Heq. unfold score_real.
  rewrite (Rsum_const _ 0); [lra|].
  intros tok Htok%elem_of_elements.
  pose proof (alphabet_divisor tokens_of src tar tok Htok) as Hn.
  rewrite Heq in *. apply term_real_balanced. lia.
Qed.

(** A token counted differently on the two sides makes it positive. *)
Lemma score_real_unbalanced src tar tok :
  count (Counter (tokens_of src)) tok ≠ count (Counter (tokens_of tar)) tok →
  0 < score_real tokens_of src tar.
Proof.
  intros Hne. unfold score_real.
  apply Rsum_pos with (x := tok).
  - intros t Ht%elem_of_elements.
    apply term_real_nonneg. by apply alphabet_divisor.
  - apply elem_of_elements. unfold alphabet_of. simpl.
    apply elem_of_union.
    destruct (decide (count (Counter (tokens_of tar)) tok = 0%nat)) as [Hz|Hz].
    + right. apply count_pos_in_dom. lia.
    + left. apply count_pos_in_dom. lia.
  - apply term_real_pos. congruence.
Qed.

(** The distance is 0 exactly when the two frequency mappings agree. *)
Lemma dist_zero_iff src tar :
  dist tokens_of src tar = Ok 0
  ↔ ∀ tok, count (Counter (tokens_of src)) tok
           = count (Counter (tokens_of tar)) tok.
Proof.
  rewrite dist_ok. split.
  - intros [= Hz] tok.
    destruct (decide (count (Counter (tokens_of src)) tok
                      = count (Counter (tokens_of tar)) tok)) as [|Hne]; [done|].
    pose proof (score_real_unbalanced src tar tok Hne) as Hpos.
    rewrite clamp_of_nonneg in Hz by lra. lra.
  - intros Heq. rewrite score_real_balanced by done.
    by rewrite clamp_of_nonneg by lra.
Qed.

End Vanishing.

(** ** Over the reals: symmetry of the loop body, disjoint token sets *)

Section Shape.
Context {Str Token : Type} `{Countable Token}.
Variable tokens_of : Str → list Token.
Implicit Types (src tar : Str) (tok : Token).
Local Open Scope R_scope.

(** Swapping the two mappings leaves every pass of the loop unchanged,
    failures included. *)
Lemma contribution_comm (src_tok tar_tok : gmap Token nat) log2 tok :
  contribution src_tok tar_tok log2 tok
  = contribution tar_tok src_tok log2 tok.
Proof.
  unfold contribution.
  rewrite (Nat.add_comm (count tar_tok tok) (count src_tok tok)).
  destruct (decide (count src_tok tok + count tar_tok tok = 0)%nat) as [Hz|Hz].
  - assert (count src_tok tok = 0%nat) as -> by lia.
    assert (count tar_tok tok = 0%nat) as -> by lia.
    done.
  - rewrite !side_val_ok by lia. simpl.
    f_equal. lra.
Qed.

Lemma score_real_comm src tar :
  score_real tokens_of src tar = score_real tokens_of tar src.
Proof.
  unfold score_real. rewrite (alphabet_of_comm tokens_of src tar).
  f_equal. apply map_ext. intros tok. apply term_real_comm.
Qed.

(** With no token in common every term is [ln 2]. *)
Lemma score_real_disjoint src tar :
  (∀ tok, tok ∈ tokens_of src → tok ∈ tokens_of tar → False) →
  score_real tokens_of src tar
  = ln 2 * INR (size (alphabet_of tokens_of src tar)).
Proof.
  intros Hdisj. unfold score_real.
  rewrite (Rsum_const _ (ln 2)); [done|].
  intros tok Htok%elem_of_elements.
  pose proof (alphabet_divisor tokens_of src tar tok Htok) as Hn.
  apply elem_of_alphabet in Htok as [Hs|Ht].
  - assert (count (Counter (tokens_of tar)) tok = 0%nat) as Hz.
    { apply count_not_in_dom. rewrite elem_of_dom_Counter.
      intros Ht. by apply (Hdisj tok). }
    rewrite Hz in *. rewrite term_real_comm. apply term_real_one_sided. lia.
  - assert (count (Counter (tokens_of src)) tok = 0%nat) as Hz.
    { apply count_not_in_dom. rewrite elem_of_dom_Counter.
      intros Hs. by apply (Hdisj tok). }
    rewrite Hz in *. apply term_real_one_sided. lia.
Qed.

End Shape.

(** Evaluates a sum of closed-form terms over explicit counts. *)
Ltac eval_terms :=
  cbn [map Rsum foldr fst snd];
  rewrite ?(term_real_comm 0), ?term_real_one_sided, ?term_real_balanced
    by lia.

(** Evaluates [dist] on two literal strings, given the list of count pairs
    the alphabet produces. *)
Ltac eval_dist pairs :=
  rewrite dist_ok, score_real_pairs;
  match goal with
  | |- context [count_pairs ?f ?a ?b] =>
      replace (count_pairs f a b) with pairs by (vm_compute; reflexivity)
  end;
  eval_terms;
  pose proof ln_2_pos;
  rewrite clamp_of_nonneg by lra;
  f_equal; lra.

(** * The claims *)

Local Open Scope R_scope.
Local Open Scope string_scope.

(** C1.  The docstring of [Millar.dist] gives 0.0 for the pairs
    cat/hat, Niall/Neil and ATCG/TAGC.  The program returns a positive
    multiple of [ln 2] for each of them: 2, 7 and 6 times [ln 2] with plain
    character 2-grams, 4, 7 and 10 times [ln 2] with the boundary markers
    [$] and [#].  None of the six values is 0. *)
Theorem Millar_doctest_values :
  dist bigrams "cat" "hat" = Ok (2 * ln 2) ∧
  dist bigrams "Niall" "Neil" = Ok (7 * ln 2) ∧
  dist bigrams "ATCG" "TAGC" = Ok (6 * ln 2) ∧
  dist marked_bigrams "cat" "hat" = Ok (4 * ln 2) ∧
  dist marked_bigrams "Niall" "Neil" = Ok (7 * ln 2) ∧
  dist marked_bigrams "ATCG" "TAGC" = Ok (10 * ln 2) ∧
  dist bigrams "cat" "hat" ≠ Ok 0 ∧
  dist bigrams "Niall" "Neil" ≠ Ok 0 ∧
  dist bigrams "ATCG" "TAGC" ≠ Ok 0 ∧
  dist marked_bigrams "cat" "hat" ≠ Ok 0 ∧
  dist marked_bigrams "Niall" "Neil" ≠ Ok 0 ∧
  dist marked_bigrams "ATCG" "TAGC" ≠ Ok 0.
Proof.
  assert (E1 : dist bigrams "cat" "hat" = Ok (2 * ln 2))
    by eval_dist [(0, 1); (1, 1); (1, 0)]%nat.
  assert (E2 : dist bigrams "Niall" "Neil" = Ok (7 * ln 2))
    by eval_dist [(1, 0); (0, 1); (1, 0); (0, 1); (1, 0); (0, 1); (0, 1)]%nat.
  assert (E3 : dist bigrams "ATCG" "TAGC" = Ok (6 * ln 2))
    by eval_dist [(1, 0); (0, 1); (1, 0); (0, 1); (0, 1); (1, 0)]%nat.
  assert (E4 : dist marked_bigrams "cat" "hat" = Ok (4 * ln 2))
    by eval_dist [(0, 1); (1, 1); (1, 1); (0, 1); (1, 0); (1, 0)]%nat.
  assert (E5 : dist marked_bigrams "Niall" "Neil" = Ok (7 * ln 2))
    by eval_dist [(1, 0); (0, 1); (1, 0); (0, 1); (1, 0); (0, 1);
                  (1, 1); (0, 1); (1, 1)]%nat.
  assert (E6 : dist marked_bigrams "ATCG" "TAGC" = Ok (10 * ln 2))
    by eval_dist [(0, 1); (1, 0); (0, 1); (1, 0); (1, 0); (0, 1);
                  (0, 1); (1, 0); (0, 1); (1, 0)]%nat.
  pose proof ln_2_pos.
  repeat split; try assumption;
    rewrite ?E1, ?E2, ?E3, ?E4, ?E5, ?E6; intros [= Hz]; lra.
Qed.

(** C2.  Under every token extraction scheme, [dist s s] is exactly 0 for
    every string [s]; and with the q-gram tokenizer, whatever the width and
    the markers, two empty strings have an empty alphabet and distance
    exactly 0. *)
Theorem Millar_dist_identity :
  (∀ (Str Token : Type) `(Countable Token) (tokens_of : Str → list Token)
     (s : Str), dist tokens_of s s = Ok 0) ∧
  (∀ q start_stop,
     alphabet_of (QGrams.tokenize q start_stop) "" "" = ∅ ∧
     dist (QGrams.tokenize q start_stop) "" "" = Ok 0).
Proof.
  split.
  - intros Str Token ? ? tokens_of s. by apply dist_zero_iff.
  - intros q start_stop. split.
    + reflexivity.
    + by apply dist_zero_iff.
Qed.

(** C5.  [dist] never raises: whatever the strings and the token type, it
    returns a number.  For every token of the alphabet the divisor [n_k]
    is positive, each logarithm that passes its guard is taken of a
    positive quotient, and the pass through the loop returns a number. *)
Theorem Millar_dist_total :
  ∀ (Str Token : Type) `(Countable Token) (tokens_of : Str → list Token)
    (src tar : Str),
    (∃ r : R, dist tokens_of src tar = Ok r) ∧
    (∀ tok : Token, tok ∈ alphabet_of tokens_of src tar →
       let src_tok := Counter (tokens_of tar) in
       let tar_tok := Counter (tokens_of src) in
       let n_k := (count src_tok tok + count tar_tok tok)%nat in
       (0 < n_k)%nat ∧
       (count src_tok tok ≠ 0%nat →
          0 < INR (count src_tok tok) / INR n_k ∧
          Py.log (INR (count src_tok tok) / INR n_k)
          = Ok (ln (INR (count src_tok tok) / INR n_k))) ∧
       (count tar_tok tok ≠ 0%nat →
          0 < INR (count tar_tok tok) / INR n_k ∧
          Py.log (INR (count tar_tok tok) / INR n_k)
          = Ok (ln (INR (count tar_tok tok) / INR n_k))) ∧
       ∃ c : R, contribution src_tok tar_tok (ln 2) tok = Ok c).
Proof.
  intros Str Token ? ? tokens_of src tar. split.
  - eexists. apply dist_ok.
  - intros tok Htok src_tok tar_tok n_k.
    pose proof (alphabet_divisor tokens_of src tar tok Htok) as Hn.
    fold src_tok tar_tok n_k in Hn.
    split; [exact Hn|].
    split; [|split].
    + intros Hc.
      assert (0 < INR (count src_tok tok) / INR n_k) as Hq
        by (apply ratio_positive; [lia | done]).
      split; [exact Hq | by apply log_ok].
    + intros Hc.
      assert (0 < INR (count tar_tok tok) / INR n_k) as Hq
        by (apply ratio_positive; [lia | done]).
      split; [exact Hq | by apply log_ok].
    + eexists. by apply contribution_ok.
Qed.

Local Close Scope string_scope.
Local Close Scope R_scope.

(** * Properties of the combinator in binary64 *)

(** ** Order and addition of binary64 numbers *)

Section Binary64.

Lemma SFadd_comm prec emax x y : SFadd prec emax x y = SFadd prec emax y x.
Proof.
  destruct x as [[]|[]| |[] mx ex], y as [[]|[]| |[] my ey];
    try reflexivity; cbn [SFadd]; cbv zeta;
    rewrite (Z.min_comm ey ex), Z.add_comm; reflexivity.
Qed.

Lemma float_add_comm (x y : float) : PrimFloat.add x y = PrimFloat.add y x.
Proof. apply Prim2SF_inj. rewrite !FloatAxioms.add_spec. apply SFadd_comm. Qed.

Lemma float_ltb_leb (x y : float) :
  PrimFloat.ltb x y = true → PrimFloat.leb x y = true.
Proof.
  rewrite FloatAxioms.ltb_spec, FloatAxioms.leb_spec. unfold SFltb, SFleb.
  by destruct (SFcompare _ _) as [[]|].
Qed.

Lemma Prim2SF_zero : Prim2SF 0%float = S754_zero false.
Proof. reflexivity. Qed.

Lemma float_sign_cases (x : float) :
  PrimFloat.is_nan x = false →
  PrimFloat.leb x 0%float = negb (PrimFloat.ltb 0%float x).
Proof.
  unfold PrimFloat.is_nan.
  rewrite FloatAxioms.eqb_spec, FloatAxioms.ltb_spec, FloatAxioms.leb_spec.
  rewrite Prim2SF_zero. unfold SFeqb, SFltb, SFleb.
  destruct (Prim2SF x) as [[]|[]| |[] m e]; cbn; try done.
Qed.

Lemma float_leb_not_ltb (x : float) :
  PrimFloat.leb x 0%float = true → PrimFloat.ltb 0%float x = false.
Proof.
  rewrite FloatAxioms.ltb_spec, FloatAxioms.leb_spec.
  rewrite Prim2SF_zero. unfold SFltb, SFleb.
  destruct (Prim2SF x) as [[]|[]| |[] m e]; cbn; try done.
Qed.

Lemma clamp64_nonneg score : PrimFloat.leb 0%float (clamp64 score) = true.
Proof.
  unfold clamp64. destruct (PrimFloat.ltb 0 score) eqn:Hlt.
  - by apply float_ltb_leb.
  - reflexivity.
Qed.

Lemma clamp64_of_pos score :
  PrimFloat.ltb 0%float score = true → clamp64 score = score.
Proof. unfold clamp64. by intros ->. Qed.

Lemma clamp64_of_nonpos score :
  PrimFloat.leb score 0%float = true → clamp64 score = 0%float.
Proof. unfold clamp64. by intros ->%float_leb_not_ltb. Qed.


End Binary64.

Section Millar64Facts.
Context {Str Token : Type} `{Countable Token}.
Variable libm_log : float → float.
Implicit Types (src_tok tar_tok : gmap Token nat) (l : list Token).

Lemma log64_2 : Py64.log libm_log 2%float = Ok (libm_log 2%float).
Proof. reflexivity. Qed.

(** Behind a divisor that is not 0, the guarded product returns a number
    or raises the domain error of [log]. *)
Lemma side_val64_cases c n_k :
  n_k ≠ 0%N →
  (∃ v, side_val64 libm_log c n_k = Ok v)
  ∨ side_val64 libm_log c n_k = Raise ValueError.
Proof.
  intros Hn. unfold side_val64, Py64.truediv, Py64.log.
  destruct (N.eqb c 0); [left; by eexists|].
  destruct (N.eqb_spec n_k 0) as [|_]; [done|]. cbn.
  destruct (PrimFloat.leb _ _); cbn; [by right | left; by eexists].
Qed.

(** Swapping the two counts leaves a pass of the loop unchanged, failures
    included. *)
Lemma term64_comm log2 s t :
  term64 libm_log log2 s t = term64 libm_log log2 t s.
Proof.
  unfold term64. cbv zeta. rewrite (N.add_comm t s).
  destruct (N.eq_dec (s + t)%N 0%N) as [Hz|Hz].
  - assert (s = 0%N) as -> by lia. assert (t = 0%N) as -> by lia. done.
  - destruct (side_val64_cases s (s + t)%N Hz) as [[u ->]| ->],
             (side_val64_cases t (s + t)%N Hz) as [[v ->]| ->]; cbn; try done.
    by rewrite (float_add_comm u v).
Qed.

Lemma contribution64_comm src_tok tar_tok log2 tok :
  contribution64 libm_log src_tok tar_tok log2 tok
  = contribution64 libm_log tar_tok src_tok log2 tok.
Proof. apply term64_comm. Qed.

Lemma accumulate64_comm src_tok tar_tok log2 l : ∀ score,
  accumulate64 libm_log src_tok tar_tok log2 score l
  = accumulate64 libm_log tar_tok src_tok log2 score l.
Proof.
  induction l as [|tok l IH]; intros score; [done|].
  cbn [accumulate64]. rewrite (contribution64_comm src_tok tar_tok).
  destruct (contribution64 _ _ _ _ _); cbn; [apply IH | done].
Qed.

Variable enum : list Token → list Token → list Token.
Variable tokens_of : Str → list Token.

Lemma score64_unfold src tar :
  score64 libm_log enum tokens_of src tar
  = accumulate64 libm_log (Counter (tokens_of tar)) (Counter (tokens_of src))
      (libm_log 2%float) 0%float (enum (tokens_of tar) (tokens_of src)).
Proof. reflexivity. Qed.

(** Two calls that walk the alphabet in the same order return the same. *)
Lemma dist64_same_order a b :
  enum (tokens_of b) (tokens_of a) = enum (tokens_of a) (tokens_of b) →
  dist64 libm_log enum tokens_of a b = dist64 libm_log enum tokens_of b a.
Proof.
  intros Heq. unfold dist64. rewrite !score64_unfold, Heq.
  by rewrite accumulate64_comm.
Qed.

(** The two calls walk the same tokens. *)
Lemma enumerates_swap a b :
  enumerates enum tokens_of a b → enumerates enum tokens_of b a →
  enum (tokens_of b) (tokens_of a) ≡ₚ enum (tokens_of a) (tokens_of b).
Proof.
  unfold enumerates. intros -> ->. by rewrite (alphabet_of_comm tokens_of a b).
Qed.

Lemma dist64_nonneg a b r :
  dist64 libm_log enum tokens_of a b = Ok r → PrimFloat.leb 0%float r = true.
Proof.
  unfold dist64. destruct (score64 _ _ _ _ _); cbn; [|done].
  intros [= <-]. apply clamp64_nonneg.
Qed.

End Millar64Facts.

(** ** The enumeration orders enumerate the alphabet *)

Section Orders.
Context {Str Token : Type} `{Countable Token}.
Implicit Types (l seen : list Token).

Lemma elem_of_first_seen l : ∀ seen tok,
  tok ∈ first_seen seen l ↔ tok ∈ l ∧ tok ∉ seen.
Proof.
  induction l as [|x l IH]; intros seen tok; cbn [first_seen].
  - rewrite elem_of_nil. tauto.
  - case_decide as Hx.
    + rewrite IH, elem_of_cons. split; [tauto|].
      intros [[->|Hin] Hn]; [done | tauto].
    + rewrite elem_of_cons, IH, !elem_of_cons. split.
      * intros [->|[Hin Hn]]; [tauto|]. split; [tauto|]. tauto.
      * intros [[->|Hin] Hn]; [tauto|].
        destruct (decide (tok = x)) as [->|Hne]; [tauto|]. right. tauto.
Qed.

Lemma NoDup_first_seen l : ∀ seen, NoDup (first_seen seen l).
Proof.
  induction l as [|x l IH]; intros seen; cbn [first_seen].
  - constructor.
  - case_decide; [apply IH|]. constructor; [|apply IH].
    rewrite elem_of_first_seen, elem_of_cons. tauto.
Qed.

Lemma first_seen_enumerates l :
  first_seen [] l ≡ₚ elements (list_to_set (C := gset Token) l).
Proof.
  apply NoDup_Permutation; [apply NoDup_first_seen | apply NoDup_elements|].
  intros tok. rewrite elem_of_first_seen, elem_of_elements, elem_of_list_to_set.
  rewrite elem_of_nil. tauto.
Qed.

Variable tokens_of : Str → list Token.

Lemma left_then_right_enumerates a b :
  enumerates left_then_right tokens_of a b.
Proof.
  unfold enumerates, left_then_right, alphabet_of. cbn [_tokenize fst snd].
  rewrite first_seen_enumerates, !dom_Counter, list_to_set_app_L. done.
Qed.

Lemma right_then_left_enumerates a b :
  enumerates right_then_left tokens_of a b.
Proof.
  unfold enumerates, right_then_left, alphabet_of. cbn [_tokenize fst snd].
  rewrite first_seen_enumerates, !dom_Counter, list_to_set_app_L.
  by rewrite (comm_L (∪)).
Qed.

Lemma canonical_order_enumerates a b :
  enumerates canonical_order tokens_of a b.
Proof. unfold enumerates. reflexivity. Qed.

End Orders.

(** ** Counting occurrences *)

Section Occurrences.
Context {Token : Type} `{Countable Token}.
Implicit Types (c : gmap Token nat) (l : list Token) (t : Token).
Local Open Scope nat_scope.

Lemma count_incr c t u :
  count (<[t := count c t + 1]> c) u
  = (if decide (t = u) then 1 else 0) + count c u.
Proof.
  unfold count at 1. rewrite count_incr_lookup.
  case_decide as Htu; simpl; [subst; lia | done].
Qed.

Lemma foldl_incr_count l : ∀ c t,
  count (foldl (λ c tok, <[tok := count c tok + 1]> c) c l) t
  = count c t + length (filter (λ u, u = t) l).
Proof.
  induction l as [|tok l IH]; intros c t; simpl; [lia|].
  rewrite IH, count_incr.
  rewrite filter_cons. case_decide; simpl; lia.
Qed.

(** [Counter(tokens)[t]] is the number of occurrences of [t]. *)
Lemma count_Counter l t :
  count (Counter l) t = length (filter (λ u, u = t) l).
Proof.
  unfold Counter. rewrite foldl_incr_count.
  unfold count. by rewrite lookup_empty.
Qed.

Lemma count_Counter_replicate k t : count (Counter (replicate k t)) t = k.
Proof.
  rewrite count_Counter. induction k as [|k IH]; [done|].
  cbn [replicate]. rewrite filter_cons. case_decide; [|done].
  cbn [length]. by rewrite IH.
Qed.

Lemma dom_Counter_replicate k t :
  0 < k → dom (Counter (replicate k t)) = {[t]}.
Proof.
  intros Hk. rewrite dom_Counter. apply set_eq. intros u.
  rewrite elem_of_list_to_set, elem_of_replicate, elem_of_singleton.
  split; [tauto | intros ->; split; [done | lia]].
Qed.


End Occurrences.

(** ** Strings of one repeated character *)

Section Repeats.
Local Open Scope nat_scope.

Lemma marker_length n c : String.length (QGrams.marker n c) = n.
Proof. induction n as [|n IH]; [done|]. cbn. by rewrite IH. Qed.

Lemma substring_marker c : ∀ i n,
  i + 2 ≤ n →
  String.substring i 2 (QGrams.marker n c) = String c (String c EmptyString).
Proof.
  induction i as [|i IH]; intros n Hn.
  - destruct n as [|[|n]]; [lia | lia |]. cbn. by destruct n.
  - destruct n as [|n]; [lia|]. cbn. apply IH. lia.
Qed.

Lemma map_seq_const {A} (f : nat → A) (x : A) k : ∀ j,
  (∀ i, j ≤ i < j + k → f i = x) → map f (seq j k) = replicate k x.
Proof.
  induction k as [|k IH]; intros j Hf; [done|].
  cbn [seq map replicate]. rewrite Hf by lia. f_equal.
  apply IH. intros i Hi. apply Hf. lia.
Qed.

(** The 2-grams of [n] copies of a character: [n - 1] copies of the
    doubled character. *)
Lemma bigrams_marker n c :
  2 ≤ n →
  bigrams (QGrams.marker n c)
  = replicate (n - 1) (String c (String c EmptyString)).
Proof.
  intros Hn. unfold bigrams, QGrams.tokenize.
  rewrite decide_False by (destruct n; [lia | done]).
  rewrite decide_False by (rewrite marker_length; lia).
  unfold QGrams.windows. rewrite marker_length.
  replace (n - 2 + 1) with (n - 1) by lia.
  apply map_seq_const. intros i Hi. apply substring_marker. lia.
Qed.

End Repeats.

Section Sums.
Context {Str Token : Type} `{Countable Token}.
Variable enum : list Token → list Token → list Token.
Variable tokens_of : Str → list Token.
Implicit Types (src_tok tar_tok : gmap Token nat) (l : list Token).

Lemma add_times_succ k x score :
  Nat.iter k (λ score, PrimFloat.add score x) (PrimFloat.add score x)
  = PrimFloat.add (Nat.iter k (λ score, PrimFloat.add score x) score) x.
Proof.
  apply (Nat.iter_swap k float (λ score, PrimFloat.add score x)).
Qed.

(** When every pass adds the same amount the loop adds it once per token. *)
Lemma accumulate64_const libm_log src_tok tar_tok log2 x l : ∀ score,
  (∀ tok, tok ∈ l → contribution64 libm_log src_tok tar_tok log2 tok = Ok x) →
  accumulate64 libm_log src_tok tar_tok log2 score l
  = Ok (Nat.iter (length l) (λ score, PrimFloat.add score x) score).
Proof.
  induction l as [|tok l IH]; intros score Hx; [done|].
  cbn [accumulate64 length]. rewrite Hx by left. cbn.
  rewrite IH by (intros u Hu; apply Hx; by right).
  f_equal. exact (add_times_succ _ _ _).
Qed.




End Sums.

Section Reached.
Variable enum : list string → list string → list string.

(** Two strings of one repeated character have one 2-gram in common and
    no other: the loop makes one pass. *)
Lemma score64_repeats libm_log (c : ascii) (s t : N) :
  (2 ≤ s)%N → (2 ≤ t)%N →
  enumerates enum bigrams
    (QGrams.marker (N.to_nat s) c) (QGrams.marker (N.to_nat t) c) →
  score64 libm_log enum bigrams
    (QGrams.marker (N.to_nat s) c) (QGrams.marker (N.to_nat t) c)
  = (x ← term64 libm_log (libm_log 2%float) (t - 1) (s - 1);
     mret (PrimFloat.add 0%float x)).
Proof.
  intros Hs Ht Henum. rewrite score64_unfold.
  unfold enumerates, alphabet_of in Henum. cbn [_tokenize fst snd] in Henum.
  rewrite !bigrams_marker in * by lia.
  rewrite !dom_Counter_replicate in Henum by lia.
  rewrite (idemp_L (∪)), elements_singleton in Henum.
  apply Permutation_singleton_r in Henum. rewrite Henum.
  cbn [accumulate64]. unfold contribution64.
  rewrite !count_Counter_replicate.
  rewrite !Nat2N.inj_sub, !N2Nat.id.
  change (N.of_nat 1) with 1%N.
  by destruct (term64 _ _ _ _).
Qed.

End Reached.

Section MarkedRepeats.
Local Open Scope nat_scope.

Lemma substring_marker_stop c d : ∀ i n,
  i + 1 = n →
  String.substring i 2 (String.append (QGrams.marker n c) (String d EmptyString))
  = String c (String d EmptyString).
Proof.
  induction i as [|i IH]; intros n Hn.
  - destruct n as [|[|n]]; [lia | done | lia].
  - destruct n as [|n]; [lia|]. cbn. apply IH. lia.
Qed.

Lemma substring_marker_inner c d : ∀ i n,
  i + 2 ≤ n →
  String.substring i 2 (String.append (QGrams.marker n c) (String d EmptyString))
  = String c (String c EmptyString).
Proof.
  induction i as [|i IH]; intros n Hn.
  - destruct n as [|[|n]]; [lia | lia |]. cbn. by destruct n.
  - destruct n as [|n]; [lia|]. cbn. apply IH. lia.
Qed.

Lemma append_length s1 s2 :
  String.length (String.append s1 s2) = String.length s1 + String.length s2.
Proof.
  induction s1 as [|c s1 IH]; [done|].
  simpl. f_equal. exact IH.
Qed.

(** The marked 2-grams of [n] copies of a character. *)
Lemma marked_bigrams_marker n c :
  1 ≤ n →
  marked_bigrams (QGrams.marker n c)
  = String "$" (String c EmptyString)
    :: replicate (n - 1) (String c (String c EmptyString))
    ++ [String c (String "#" EmptyString)].
Proof.
  intros Hn. unfold marked_bigrams, QGrams.tokenize.
  rewrite decide_False by (destruct n; [lia | done]).
  change (QGrams.marker (2 - 1) ?x) with (String x EmptyString).
  change (String.append (String "$" EmptyString) ?s) with (String "$"%char s).
  rewrite decide_False
    by (cbn [String.length]; rewrite append_length, marker_length; cbn; lia).
  unfold QGrams.windows. cbn [String.length].
  rewrite append_length, marker_length. cbn [String.length].
  replace (S (n + 1) - 2 + 1) with (S n) by lia.
  cbn [seq map]. f_equal.
  - destruct n as [|n]; [lia|]. simpl. do 2 f_equal.
    by destruct (_ +:+ _).
  - rewrite <- seq_shift, map_map.
    replace n with ((n - 1) + 1) at 1 by lia.
    rewrite seq_app, map_app. f_equal.
    + apply map_seq_const. intros i Hi. cbn [String.substring].
      apply substring_marker_inner. lia.
    + cbn [seq map String.substring]. f_equal.
      apply substring_marker_stop. lia.
Qed.

End MarkedRepeats.

Section MarkedReached.
Variable enum : list string → list string → list string.
Local Open Scope string_scope.

Lemma filter_replicate (k : nat) (u tok : string) :
  filter (λ v, v = tok) (replicate k u)
  = if decide (u = tok) then replicate k u else [].
Proof.
  induction k as [|k IH]; [by case_decide|].
  cbn [replicate]. rewrite filter_cons, IH. by case_decide.
Qed.

Lemma count_marked_repeats (k : nat) :
  count (Counter ("$a" :: replicate k "aa" ++ ["a#"])) "$a" = 1%nat
  ∧ count (Counter ("$a" :: replicate k "aa" ++ ["a#"])) "aa" = k
  ∧ count (Counter ("$a" :: replicate k "aa" ++ ["a#"])) "a#" = 1%nat.
Proof.
  rewrite !count_Counter, !filter_cons, !filter_app, !filter_replicate.
  rewrite !filter_cons, !filter_nil.
  repeat case_decide; try done.
  cbn [app length]. rewrite length_app, length_replicate. cbn [length].
  split; [done|]. split; [lia | done].
Qed.


Lemma elem_of_marked_repeats (k : nat) (tok : string) :
  (0 < k)%nat →
  tok ∈ "$a" :: replicate k "aa" ++ ["a#"] ↔ tok ∈ ["$a"; "aa"; "a#"].
Proof.
  intros Hk.
  rewrite !elem_of_cons, elem_of_app, elem_of_replicate, !elem_of_cons,
    !elem_of_nil.
  intuition lia.
Qed.

(** Two strings of one repeated letter, with the markers: the alphabet
    has the three tokens [$a], [aa] and [a#], and only [aa] is counted
    differently by the two strings. *)
Lemma score64_marked_repeats libm_log (s t : N) (x : float) :
  (2 ≤ s)%N → (2 ≤ t)%N →
  term64 libm_log (libm_log 2%float) 1 1 = Ok 0%float →
  term64 libm_log (libm_log 2%float) (t - 1) (s - 1) = Ok x →
  PrimFloat.add 0 x = x → PrimFloat.add x 0 = x →
  enumerates enum marked_bigrams
    (QGrams.marker (N.to_nat s) "a") (QGrams.marker (N.to_nat t) "a") →
  score64 libm_log enum marked_bigrams
    (QGrams.marker (N.to_nat s) "a") (QGrams.marker (N.to_nat t) "a")
  = Ok x.
Proof.
  intros Hs Ht Hone Hx Hl Hr Henum. rewrite score64_unfold.
  assert (enum (marked_bigrams (QGrams.marker (N.to_nat t) "a"))
               (marked_bigrams (QGrams.marker (N.to_nat s) "a"))
          ∈ permutations ["$a"; "aa"; "a#"]) as Hperm.
  { apply permutations_Permutation. unfold enumerates in Henum.
    rewrite Henum. symmetry.
    apply NoDup_Permutation; [apply NoDup_elements | by compute_done |].
    intros tok. rewrite elem_of_elements, elem_of_alphabet.
    rewrite !marked_bigrams_marker by lia.
    rewrite !elem_of_marked_repeats by lia. tauto. }
  rewrite !marked_bigrams_marker in * by lia.
  destruct (count_marked_repeats (N.to_nat s - 1)) as (Hs1 & Hs2 & Hs3).
  destruct (count_marked_repeats (N.to_nat t - 1)) as (Ht1 & Ht2 & Ht3).
  assert (N.of_nat (N.to_nat s - 1) = (s - 1)%N) as Hsn by lia.
  assert (N.of_nat (N.to_nat t - 1) = (t - 1)%N) as Htn by lia.
  cbn [permutations interleave mbind list_bind mret list_ret fmap list_fmap
       app] in Hperm.
  repeat (apply elem_of_cons in Hperm as [-> | Hperm]);
    [..|by apply elem_of_nil in Hperm];
    cbn [accumulate64]; unfold contribution64;
    rewrite Hs1, Hs2, Hs3, Ht1, Ht2, Ht3, Hsn, Htn;
    change (N.of_nat 1) with 1%N;
    rewrite ?Hone, ?Hx; cbn [mbind result_bind mret result_ret];
    change (PrimFloat.add 0 0) with 0%float;
    rewrite ?Hl, ?Hr, ?Hx; cbn [mbind result_bind mret result_ret];
    rewrite ?Hone; cbn [mbind result_bind mret result_ret];
    change (PrimFloat.add 0 0) with 0%float;
    rewrite ?Hl, ?Hr, ?Hone, ?Hx; cbn [mbind result_bind mret result_ret];
    rewrite ?Hl, ?Hr; try reflexivity.
Qed.

End MarkedReached.

(** ** Checks over a range of counts *)

Lemma returns_zero_spec r : returns_zero r = true → r = Ok 0%float.
Proof.
  destruct r as [x|e]; cbn; [|done].
  destruct (Prim2SF x) as [[]| | |] eqn:Hx; try done.
  intros _. f_equal. by apply Prim2SF_inj.
Qed.

Lemma all_from_spec p k : ∀ c x,
  all_from p c k = true → (c ≤ x < c + N.of_nat k)%N → p x = true.
Proof.
  induction k as [|k IH]; intros c x Hall Hx; [lia|].
  cbn [all_from] in Hall. apply andb_prop in Hall as [Hc Hrest].
  destruct (N.eq_dec x c) as [->|Hne]; [done|].
  apply (IH (N.succ c)); [done | lia].
Qed.

Lemma balanced_to_100000 (c : N) :
  (0 < c ≤ 100000)%N →
  term64 Py64.libm_log Py64.log_2 c c = Ok 0%float.
Proof.
  intros Hc. apply returns_zero_spec.
  assert (all_from
            (λ c, returns_zero (term64 Py64.libm_log Py64.log_2 c c))
            1 (N.to_nat 100000) = true) as Hall
    by (vm_compute; reflexivity).
  apply (all_from_spec _ _ _ _ Hall). lia.
Qed.

Section Bounded.

Lemma returns_spec r : returns r = true → ∃ x, r = Ok x.
Proof. destruct r; [by eexists | done]. Qed.

(** Whatever [math.log] returns, a pass of the loop returns a number when
    the two counts are not both 0 and their sum is at most 1000. *)
Lemma term64_returns libm_log log2 (s t : N) :
  (0 < s + t ≤ 1000)%N → ∃ x, term64 libm_log log2 s t = Ok x.
Proof.
  intros Hst. apply returns_spec.
  assert (all_from
            (λ n, all_from
                    (λ s, returns (term64 libm_log log2 s (n - s)))
                    0 (S (N.to_nat n)))
            1 (N.to_nat 1000) = true) as Hall
    by (vm_compute; reflexivity).
  pose proof (all_from_spec _ _ _ (s + t)%N Hall ltac:(lia)) as Hn.
  cbv beta in Hn.
  pose proof (all_from_spec _ _ _ s Hn ltac:(lia)) as Hs.
  cbv beta in Hs. by replace (s + t - s)%N with t in Hs by lia.
Qed.

End Bounded.

Section BoundedDist.
Context {Str Token : Type} `{Countable Token}.
Variable enum : list Token → list Token → list Token.
Variable tokens_of : Str → list Token.
Implicit Types (src_tok tar_tok : gmap Token nat) (l : list Token).

Lemma count_Counter_le l tok : count (Counter l) tok ≤ length l.
Proof. rewrite count_Counter. apply length_filter. Qed.

Lemma accumulate64_returns libm_log src_tok tar_tok log2 l : ∀ score,
  (∀ tok, tok ∈ l →
     ∃ x, contribution64 libm_log src_tok tar_tok log2 tok = Ok x) →
  ∃ r, accumulate64 libm_log src_tok tar_tok log2 score l = Ok r.
Proof.
  induction l as [|tok l IH]; intros score Hl; [by eexists|].
  cbn [accumulate64]. destruct (Hl tok ltac:(left)) as [x ->]. cbn.
  apply IH. intros u Hu. apply Hl. by right.
Qed.

Lemma score64_returns libm_log a b :
  enumerates enum tokens_of a b →
  (N.of_nat (length (tokens_of a) + length (tokens_of b)) ≤ 1000)%N →
  ∃ r, score64 libm_log enum tokens_of a b = Ok r.
Proof.
  intros Henum Hlen. rewrite score64_unfold.
  apply accumulate64_returns. intros tok Htok.
  unfold contribution64. apply term64_returns.
  pose proof (count_Counter_le (tokens_of a) tok).
  pose proof (count_Counter_le (tokens_of b) tok).
  unfold enumerates in Henum. rewrite Henum in Htok.
  apply elem_of_elements in Htok.
  pose proof (alphabet_divisor tokens_of a b tok Htok). lia.
Qed.

Lemma add_times_zero k : add_times k 0%float = 0%float.
Proof.
  induction k as [|k IH]; [done|].
  change (add_times (S k) 0) with (PrimFloat.add (add_times k 0) 0).
  by rewrite IH.
Qed.

Lemma score64_same_counts a b :
  enumerates enum tokens_of a b →
  (∀ tok, count (Counter (tokens_of a)) tok
          = count (Counter (tokens_of b)) tok) →
  (N.of_nat (length (tokens_of a)) ≤ 100000)%N →
  score64 Py64.libm_log enum tokens_of a b = Ok 0%float.
Proof.
  intros Henum Heq Hlen. rewrite score64_unfold.
  rewrite accumulate64_const with (x := 0%float).
  - f_equal. apply add_times_zero.
  - intros tok Htok. unfold contribution64.
    unfold enumerates in Henum. rewrite Henum in Htok.
    apply elem_of_elements in Htok.
    pose proof (alphabet_divisor tokens_of a b tok Htok) as Hpos.
    pose proof (count_Counter_le (tokens_of a) tok).
    rewrite <- Heq in *.
    apply balanced_to_100000. lia.
Qed.

End BoundedDist.

(** * The claims, in binary64 *)

Local Open Scope string_scope.

(** C3, counterexample.  With the boundary markers [$] and [#] and the
    keys of [src_tok] enumerated before the new keys of [tar_tok],
    [dist("aaa", "bbaa")] walks [$b bb ba aa a# $a] and returns
    2.8292217345049133, and [dist("bbaa", "aaa")] walks
    [$a aa a# $b bb ba] and returns 2.8292217345049138: the two calls add
    the same six contributions in a different order and disagree in the
    last bit. *)
Lemma Millar_dist_symmetric_counterexample :
  enumerates left_then_right marked_bigrams "aaa" "bbaa" ∧
  enumerates left_then_right marked_bigrams "bbaa" "aaa" ∧
  dist64 Py64.libm_log left_then_right marked_bigrams "aaa" "bbaa"
  = Ok 0x1.6a23f0136a5e2p+1%float ∧
  dist64 Py64.libm_log left_then_right marked_bigrams "bbaa" "aaa"
  = Ok 0x1.6a23f0136a5e3p+1%float ∧
  dist64 Py64.libm_log left_then_right marked_bigrams "aaa" "bbaa"
  ≠ dist64 Py64.libm_log left_then_right marked_bigrams "bbaa" "aaa".
Proof.
  split; [apply left_then_right_enumerates|].
  split; [apply left_then_right_enumerates|].
  split; [vm_compute; reflexivity|].
  split; [vm_compute; reflexivity|].
  intros Heq. vm_compute in Heq. discriminate Heq.
Qed.

(** C3.  What holds of the symmetry of [dist].  Swapping the two mappings
    leaves every per-token contribution unchanged, for each token and each
    value of [log2], failures included; the two calls [dist(a, b)] and
    [dist(b, a)] walk the same tokens; and when they walk them in the same
    order they return the same, for every [math.log], tokenizer and pair of
    strings. *)
Theorem Millar_dist_symmetric_same_order :
  ∀ (Str Token : Type) `(Countable Token) (libm_log : float → float)
    (enum : list Token → list Token → list Token)
    (tokens_of : Str → list Token) (a b : Str),
    enumerates enum tokens_of a b →
    enumerates enum tokens_of b a →
    (∀ log2 tok,
       contribution64 libm_log
         (Counter (tokens_of b)) (Counter (tokens_of a)) log2 tok
       = contribution64 libm_log
           (Counter (tokens_of a)) (Counter (tokens_of b)) log2 tok) ∧
    enum (tokens_of b) (tokens_of a) ≡ₚ enum (tokens_of a) (tokens_of b) ∧
    (enum (tokens_of b) (tokens_of a) = enum (tokens_of a) (tokens_of b) →
     dist64 libm_log enum tokens_of a b = dist64 libm_log enum tokens_of b a).
Proof.
  intros Str Token ? ? libm_log enum tokens_of a b Hab Hba.
  split; [|split].
  - intros log2 tok. apply contribution64_comm.
  - by apply enumerates_swap.
  - apply dist64_same_order.
Qed.

Lemma Millar_dist_symmetric_same_order_witness :
  enumerates canonical_order marked_bigrams "aaa" "bbaa" ∧
  enumerates canonical_order marked_bigrams "bbaa" "aaa" ∧
  canonical_order (marked_bigrams "bbaa") (marked_bigrams "aaa")
  = canonical_order (marked_bigrams "aaa") (marked_bigrams "bbaa") ∧
  dist64 Py64.libm_log canonical_order marked_bigrams "aaa" "bbaa"
  = dist64 Py64.libm_log canonical_order marked_bigrams "bbaa" "aaa".
Proof.
  assert (enumerates canonical_order marked_bigrams "aaa" "bbaa") as Hab
    by apply canonical_order_enumerates.
  assert (enumerates canonical_order marked_bigrams "bbaa" "aaa") as Hba
    by apply canonical_order_enumerates.
  assert (canonical_order (marked_bigrams "bbaa") (marked_bigrams "aaa")
          = canonical_order (marked_bigrams "aaa") (marked_bigrams "bbaa"))
    as Hsame by (vm_compute; reflexivity).
  split; [exact Hab|]. split; [exact Hba|]. split; [exact Hsame|].
  exact (proj2 (proj2 (@Millar_dist_symmetric_same_order
                         string string _ _ Py64.libm_log canonical_order
                         marked_bigrams "aaa" "bbaa" Hab Hba)) Hsame).
Defined.

(** C4.  The value [dist] returns is never below 0, whatever [math.log]
    returns and in whatever order the alphabet is walked: when the
    accumulated score is at most 0 the result is 0.0, when it is above 0
    the result is the score itself (so for every score that is not a NaN
    and not at most 0), and an exception of the loop is not swallowed.
    The first case is reached: for 100000003 and 100000001 copies of the
    letter a the token [aa] is counted 100000002 and 100000000 times, with
    the markers [$] and [#] as without them; the accumulated score is
    -1.4901161044836045e-16, and [dist] returns 0.0. *)
Theorem Millar_dist_nonneg_clamped :
  (∀ (Str Token : Type) `(Countable Token) (libm_log : float → float)
     (enum : list Token → list Token → list Token)
     (tokens_of : Str → list Token) (a b : Str),
     (∀ r, dist64 libm_log enum tokens_of a b = Ok r →
           PrimFloat.leb 0 r = true) ∧
     (∀ score, score64 libm_log enum tokens_of a b = Ok score →
        (PrimFloat.leb score 0 = true →
           dist64 libm_log enum tokens_of a b = Ok 0%float) ∧
        (PrimFloat.ltb 0 score = true →
           dist64 libm_log enum tokens_of a b = Ok score) ∧
        (PrimFloat.is_nan score = false → PrimFloat.leb score 0 = false →
           dist64 libm_log enum tokens_of a b = Ok score)) ∧
     (∀ e, score64 libm_log enum tokens_of a b = Raise e →
           dist64 libm_log enum tokens_of a b = Raise e)) ∧
  (∀ (enum : list string → list string → list string)
     (tokens_of : string → list string),
     tokens_of = marked_bigrams ∨ tokens_of = bigrams →
     enumerates enum tokens_of
       (QGrams.marker (N.to_nat 100000003) "a")
       (QGrams.marker (N.to_nat 100000001) "a") →
     score64 Py64.libm_log enum tokens_of
       (QGrams.marker (N.to_nat 100000003) "a")
       (QGrams.marker (N.to_nat 100000001) "a")
     = Ok (-0x1.5798ede9635e7p-53)%float ∧
     PrimFloat.leb (-0x1.5798ede9635e7p-53) 0 = true ∧
     dist64 Py64.libm_log enum tokens_of
       (QGrams.marker (N.to_nat 100000003) "a")
       (QGrams.marker (N.to_nat 100000001) "a")
     = Ok 0%float).
Proof.
  split.
  - intros Str Token ? ? libm_log enum tokens_of a b.
    split; [|split].
    + apply dist64_nonneg.
    + intros score Hs. unfold dist64. rewrite Hs. cbn.
      split; [|split].
      * intros Hle. by rewrite clamp64_of_nonpos.
      * intros Hlt. by rewrite clamp64_of_pos.
      * intros Hnan Hle. rewrite clamp64_of_pos; [done|].
        rewrite float_sign_cases in Hle by done.
        by destruct (PrimFloat.ltb 0 score).
    + intros e He. unfold dist64. by rewrite He.
  - intros enum tokens_of Htok Henum.
    assert (score64 Py64.libm_log enum tokens_of
              (QGrams.marker (N.to_nat 100000003) "a")
              (QGrams.marker (N.to_nat 100000001) "a")
            = Ok (-0x1.5798ede9635e7p-53)%float) as Hs.
    { destruct Htok as [-> | ->].
      - apply score64_marked_repeats;
          [lia | lia | vm_compute; reflexivity..| exact Henum].
      - rewrite score64_repeats by (done || lia).
        vm_compute. reflexivity. }
    split; [exact Hs|]. split; [reflexivity|].
    unfold dist64. rewrite Hs. reflexivity.
Qed.

Lemma Millar_dist_nonneg_clamped_witness :
  dist64 Py64.libm_log left_then_right marked_bigrams "aaa" "bbaa"
  = Ok 0x1.6a23f0136a5e2p+1%float ∧
  PrimFloat.leb 0 0x1.6a23f0136a5e2p+1 = true.
Proof.
  assert (dist64 Py64.libm_log left_then_right marked_bigrams "aaa" "bbaa"
          = Ok 0x1.6a23f0136a5e2p+1%float) as Hd by (vm_compute; reflexivity).
  split; [exact Hd|].
  exact (proj1 (proj1 Millar_dist_nonneg_clamped string string _ _
                  Py64.libm_log left_then_right marked_bigrams "aaa" "bbaa")
               _ Hd).
Defined.




(** * Further properties of the Millar combinator *)

(** X1.  In binary64 [dist] returns exactly 0.0 for two strings that count
    every token the same number of times, in every order of enumeration,
    for strings of up to 100000 tokens; so [dist(s, s)] is 0.0. *)
Theorem Millar_same_counts_zero :
  ∀ (Str Token : Type) `(Countable Token)
    (enum : list Token → list Token → list Token)
    (tokens_of : Str → list Token) (a b : Str),
    enumerates enum tokens_of a b →
    (∀ tok, count (Counter (tokens_of a)) tok
            = count (Counter (tokens_of b)) tok) →
    (N.of_nat (length (tokens_of a)) ≤ 100000)%N →
    dist64 Py64.libm_log enum tokens_of a b = Ok 0%float.
Proof.
  intros Str Token ? ? enum tokens_of a b Henum Heq Hlen.
  unfold dist64. by rewrite score64_same_counts.
Qed.

Lemma Millar_same_counts_zero_witness :
  enumerates left_then_right marked_bigrams "Niall" "Niall" ∧
  (N.of_nat (length (marked_bigrams "Niall")) ≤ 100000)%N ∧
  dist64 Py64.libm_log left_then_right marked_bigrams "Niall" "Niall"
  = Ok 0%float.
Proof.
  assert (enumerates left_then_right marked_bigrams "Niall" "Niall") as Henum
    by apply left_then_right_enumerates.
  assert (N.of_nat (length (marked_bigrams "Niall")) ≤ 100000)%N as Hlen
    by (vm_compute; discriminate).
  split; [exact Henum|]. split; [exact Hlen|].
  exact (@Millar_same_counts_zero string string _ _ left_then_right
           marked_bigrams "Niall" "Niall" Henum (λ tok, eq_refl) Hlen).
Defined.

(** X2.  The order in which the loop enumerates the alphabet matters.  Two
    enumerations of the same alphabet make the loop add the same
    contributions, up to order; but the value returned depends on that
    order: [dist("aaa", "bbaa")] with the markers [$] and [#] is
    2.8292217345049133 when the keys of [src_tok] come first and
    2.8292217345049138 when those of [tar_tok] do. *)
Theorem Millar_loop_order_matters :
  (∀ (Str Token : Type) `(Countable Token) (libm_log : float → float)
     (enum enum' : list Token → list Token → list Token)
     (tokens_of : Str → list Token) (a b : Str) (log2 : float),
     enumerates enum tokens_of a b → enumerates enum' tokens_of a b →
     map (contribution64 libm_log (Counter (tokens_of b))
            (Counter (tokens_of a)) log2)
         (enum (tokens_of b) (tokens_of a))
     ≡ₚ map (contribution64 libm_log (Counter (tokens_of b))
               (Counter (tokens_of a)) log2)
            (enum' (tokens_of b) (tokens_of a))) ∧
  enumerates left_then_right marked_bigrams "aaa" "bbaa" ∧
  enumerates right_then_left marked_bigrams "aaa" "bbaa" ∧
  dist64 Py64.libm_log left_then_right marked_bigrams "aaa" "bbaa"
  = Ok 0x1.6a23f0136a5e2p+1%float ∧
  dist64 Py64.libm_log right_then_left marked_bigrams "aaa" "bbaa"
  = Ok 0x1.6a23f0136a5e3p+1%float ∧
  dist64 Py64.libm_log left_then_right marked_bigrams "aaa" "bbaa"
  ≠ dist64 Py64.libm_log right_then_left marked_bigrams "aaa" "bbaa".
Proof.
  split.
  { intros Str Token ? ? libm_log enum enum' tokens_of a b log2 He He'.
    apply fmap_Permutation. unfold enumerates in He, He'. by rewrite He, He'. }
  split; [apply left_then_right_enumerates|].
  split; [apply right_then_left_enumerates|].
  split; [vm_compute; reflexivity|].
  split; [vm_compute; reflexivity|].
  intros Heq. vm_compute in Heq. discriminate Heq.
Qed.

(** X3.  In binary64, whatever [math.log] returns and in whatever order the
    alphabet is walked, [dist] raises nothing and returns a number that is
    not below 0, for two strings of at most 1000 tokens together. *)
Theorem Millar_returns_binary64 :
  ∀ (Str Token : Type) `(Countable Token) (libm_log : float → float)
    (enum : list Token → list Token → list Token)
    (tokens_of : Str → list Token) (a b : Str),
    enumerates enum tokens_of a b →
    (N.of_nat (length (tokens_of a) + length (tokens_of b)) ≤ 1000)%N →
    ∃ r, dist64 libm_log enum tokens_of a b = Ok r
         ∧ PrimFloat.leb 0 r = true.
Proof.
  intros Str Token ? ? libm_log enum tokens_of a b Henum Hlen.
  destruct (score64_returns enum tokens_of libm_log a b Henum Hlen)
    as [score Hs].
  exists (clamp64 score). split; [|apply clamp64_nonneg].
  unfold dist64. by rewrite Hs.
Qed.

Lemma Millar_returns_binary64_witness :
  enumerates left_then_right marked_bigrams "aaa" "bbaa" ∧
  (N.of_nat (length (marked_bigrams "aaa") + length (marked_bigrams "bbaa"))
   ≤ 1000)%N ∧
  ∃ r, dist64 Py64.libm_log left_then_right marked_bigrams "aaa" "bbaa" = Ok r
       ∧ PrimFloat.leb 0 r = true.
Proof.
  assert (enumerates left_then_right marked_bigrams "aaa" "bbaa") as Henum
    by apply left_then_right_enumerates.
  assert (N.of_nat (length (marked_bigrams "aaa")
                    + length (marked_bigrams "bbaa")) ≤ 1000)%N as Hlen
    by (vm_compute; discriminate).
  split; [exact Henum|]. split; [exact Hlen|].
  exact (@Millar_returns_binary64 string string _ _ Py64.libm_log
           left_then_right marked_bigrams "aaa" "bbaa" Henum Hlen).
Defined.

(** X4.  One pass of the loop body, for two counts whose sum is at most
    1000 and whatever [math.log] returns: the pass raises
    ZeroDivisionError when both counts are 0, and returns a number in
    every other case; the domain error of [log] is not reached. *)
Theorem Millar_loop_body_errors64 :
  ∀ (libm_log : float → float) (log2 : float) (s t : N),
    (s + t ≤ 1000)%N →
    ((s + t)%N = 0%N → term64 libm_log log2 s t = Raise ZeroDivisionError) ∧
    ((0 < s + t)%N → ∃ x, term64 libm_log log2 s t = Ok x).
Proof.
  intros libm_log log2 s t Hst. split.
  - intros Hz. assert (s = 0%N) as -> by lia. assert (t = 0%N) as -> by lia.
    reflexivity.
  - intros Hpos. apply term64_returns. lia.
Qed.

Lemma Millar_loop_body_errors64_witness :
  (1 + 2 ≤ 1000)%N ∧ (0 < 1 + 2)%N ∧
  ∃ x, term64 Py64.libm_log Py64.log_2 1 2 = Ok x.
Proof.
  assert (1 + 2 ≤ 1000)%N as Hst by (vm_compute; discriminate).
  assert (0 < 1 + 2)%N as Hpos by reflexivity.
  split; [exact Hst|]. split; [exact Hpos|].
  exact (proj2 (Millar_loop_body_errors64 Py64.libm_log Py64.log_2 1 2 Hst)
           Hpos).
Defined.

(** * Properties of the phonetic encoders *)

Local Close Scope string_scope.

(** ** Sublists, and the function that deletes repeats *)

Section Sublists.
Context {A : Type}.
Implicit Types (l k : list A).

Lemma Forall_sublist (P : A → Prop) l k :
  l `sublist_of` k → Forall P k → Forall P l.
Proof.
  induction 1 as [|x l k _ IH|x l k _ IH]; intros Hk.
  - constructor.
  - inversion Hk; subst. constructor; auto.
  - inversion Hk; subst. auto.
Qed.

Lemma sublist_drop_1 l k :
  l `sublist_of` k → drop 1 l `sublist_of` drop 1 k.
Proof.
  destruct 1 as [|x l k Hs|x l k Hs]; simpl.
  - constructor.
  - rewrite !drop_0. exact Hs.
  - rewrite drop_0. etrans; [apply sublist_drop | exact Hs].
Qed.

Lemma drop_1_app_sublist l k :
  drop 1 (l ++ k) `sublist_of` drop 1 l ++ k.
Proof.
  destruct l as [|x l]; simpl; [apply sublist_drop | by rewrite !drop_0].
Qed.

End Sublists.

Lemma delete_repeats_sublist (w : str) :
  Phonetic.delete_repeats w `sublist_of` w.
Proof.
  induction w as [|a w IH]; [constructor|].
  cbn [Phonetic.delete_repeats]. destruct w as [|b w].
  - reflexivity.
  - destruct (N.eqb a b).
    + by apply sublist_cons.
    + by apply sublist_skip.
Qed.

(** ** Norphone: slices, the replacement tables, the loop *)

Section NorphoneFacts.
Import Chr.
Local Open Scope nat_scope.
Implicit Types (word chars code out : str) (pos skip : nat).

Local Ltac by_compute :=
  repeat match goal with
         | |- Forall _ ?l =>
             let l' := eval vm_compute in l in
             change l with l';
             first [apply Forall_nil_2 | apply Forall_cons_2; cbn beta iota delta [fst snd]]
         | |- _ => compute_done
         end.

Lemma drop_tail_eq word pos (char : N) chars :
  drop pos word = char :: chars → drop (S pos) word = chars.
Proof.
  intros Hd. replace (S pos) with (pos + 1) by lia.
  by rewrite <- drop_drop, Hd.
Qed.

Lemma drop_cons_lt word pos (char : N) chars :
  drop pos word = char :: chars → pos < length word.
Proof.
  intros Hd. destruct (decide (pos < length word)) as [|Hge]; [done|].
  rewrite drop_ge in Hd by lia. discriminate.
Qed.

Lemma clip_nat len n : n ≤ len → PyStr.clip len (Z.of_nat n) = n.
Proof.
  intros Hle. unfold PyStr.clip.
  destruct (Z.ltb_spec (Z.of_nat n) 0); [lia|].
  rewrite Nat2Z.id. lia.
Qed.

(** [word[pos:pos+1]] is the character the loop is at. *)
Lemma slice_at word pos (char : N) chars :
  drop pos word = char :: chars →
  PyStr.slice (Z.of_nat pos) (Z.of_nat (pos + 1)) word = [char].
Proof.
  intros Hd. pose proof (drop_cons_lt _ _ _ _ Hd).
  unfold PyStr.slice. rewrite !clip_nat by lia.
  replace (pos + 1 - pos) with 1 by lia. by rewrite Hd.
Qed.

Lemma lookup_Some key (d : list (str * str)) out :
  Norphone.lookup key d = Some out → (key, out) ∈ d.
Proof.
  unfold Norphone.lookup.
  destruct (find _ d) as [[k o]|] eqn:Hf; [|done].
  intros [= <-]. apply find_some in Hf as [Hin Heq].
  apply bool_decide_eq_true in Heq. simpl in Heq. subst.
  by apply list_elem_of_In.
Qed.

Lemma first_match_Some (P : str → Prop) word pos ls length out :
  (∀ n key o, n ∈ ls → (key, o) ∈ Norphone.table n → P o) →
  Norphone.first_match word pos ls = Some (length, out) → P out.
Proof.
  induction ls as [|n ls IH]; intros HP; simpl; [done|].
  destruct (Norphone.lookup _ (Norphone.table n)) as [o|] eqn:Hl.
  - intros [= <- <-]. apply lookup_Some in Hl.
    eapply HP; [left | exact Hl].
  - apply IH. intros m key o Hm. apply HP. by right.
Qed.

(** What holds of every replacement in the tables holds of the one the
    loop finds. *)
Lemma replacements_Forall (P : str → Prop) :
  Forall (λ e, Forall (λ r, P r.2) e.2) Norphone._replacements →
  ∀ n key o, n ∈ Norphone.lengths → (key, o) ∈ Norphone.table n → P o.
Proof.
  intros Hall n key o Hn Hin.
  assert (Forall (λ r : str * str, P r.2) (Norphone.table n)) as Ht.
  { unfold Norphone.lengths in Hn.
    rewrite !elem_of_cons, elem_of_nil in Hn.
    destruct Hn as [->|[->|[->|[->|[]]]]];
      cbn [Norphone.table Norphone._replacements find fst snd Nat.eqb
           fmap option_fmap option_map default];
      inversion Hall as [|? ? H4 Hall3]; subst;
      inversion Hall3 as [|? ? H3 Hall2]; subst;
      inversion Hall2 as [|? ? H2 Hall1]; subst;
      inversion Hall1 as [|? ? H1 _]; subst; assumption. }
  rewrite Forall_forall in Ht. apply (Ht (key, o)), Hin.
Qed.

(** A character no table replaces is none of W, X, Z, D, G. *)
Lemma first_match_None word pos (char : N) chars :
  drop pos word = char :: chars →
  Norphone.first_match word pos Norphone.lengths = None →
  char ∉ u "WXZDG".
Proof.
  intros Hd Hnone. unfold Norphone.lengths in Hnone. simpl in Hnone.
  repeat match type of Hnone with
         | match ?l with Some _ => _ | None => _ end = None =>
             destruct l eqn:?; [discriminate|]
         end.
  rewrite (slice_at _ _ _ _ Hd) in *.
  intros Hin. change (u "WXZDG") with [87; 88; 90; 68; 71]%N in Hin.
  rewrite !elem_of_cons, elem_of_nil in Hin.
  destruct Hin as [->|[->|[->|[->|[->|[]]]]]];
    match goal with
    | H : Norphone.lookup _ (Norphone.table 1) = None |- _ =>
        vm_compute in H; discriminate
    end.
Qed.

(** The loop never puts D, G, W or Z into the code. *)
Lemma loop_reduced word : ∀ chars pos code skip,
  drop pos word = chars →
  Forall (λ ch, ch ∉ u "DGWZ") code →
  Forall (λ ch, ch ∉ u "DGWZ") (Norphone.loop word chars pos code skip).
Proof.
  induction chars as [|char chars IH]; intros pos code skip Hd Hcode;
    cbn [Norphone.loop]; [done|].
  pose proof (drop_tail_eq _ _ _ _ Hd) as Hd'.
  destruct skip as [|skip]; [|by apply IH].
  destruct (Norphone.first_match word pos Norphone.lengths)
    as [[length out]|] eqn:Hm.
  - apply IH; [done|]. apply Forall_app. split; [done|].
    revert Hm. apply first_match_Some.
    apply (replacements_Forall (Forall _)). by_compute.
  - pose proof (first_match_None _ _ _ _ Hd Hm) as Hchar.
    destruct (_ || _); apply IH; try done.
    apply Forall_app. split; [done|]. constructor; [|done].
    intros Hin. apply Hchar.
    change (u "DGWZ") with [68; 71; 87; 90]%N in Hin.
    change (u "WXZDG") with [87; 88; 90; 68; 71]%N.
    rewrite !elem_of_cons, elem_of_nil in *. tauto.
Qed.

(** The loop puts a vowel into the code at its very beginning only. *)
Lemma loop_vowels word : ∀ chars pos code skip,
  drop pos word = chars →
  (pos = 0 → skip = 0 → code = []) →
  Forall (λ ch, ch ∉ Norphone._uc_v_set) (drop 1 code) →
  Forall (λ ch, ch ∉ Norphone._uc_v_set)
         (drop 1 (Norphone.loop word chars pos code skip)).
Proof.
  induction chars as [|char chars IH]; intros pos code skip Hd Hstart Hcode;
    cbn [Norphone.loop]; [done|].
  pose proof (drop_tail_eq _ _ _ _ Hd) as Hd'.
  destruct skip as [|skip]; [|apply IH; [done | lia | done]].
  destruct (Norphone.first_match word pos Norphone.lengths)
    as [[length out]|] eqn:Hm.
  - apply IH; [done | lia |].
    apply (Forall_sublist _ _ (drop 1 code ++ out));
      [apply drop_1_app_sublist|].
    apply Forall_app. split; [done|].
    revert Hm. apply first_match_Some.
    apply (replacements_Forall (Forall _)). by_compute.
  - destruct (Nat.eqb_spec pos 0) as [->|Hpos]; simpl.
    + rewrite (Hstart eq_refl eq_refl). apply IH; [done | lia |].
      simpl. constructor.
    + destruct (bool_decide_reflect (char ∈ Norphone._uc_v_set)) as [Hv|Hv];
        simpl; apply IH; try done; try lia.
      apply (Forall_sublist _ _ (drop 1 code ++ [char]));
        [apply drop_1_app_sublist|].
      apply Forall_app. split; [done|]. by constructor.
Qed.

(** When a rule of the first chain fires, it sets a skip and a code free
    of D, G, W and Z. *)
Lemma initial_spec word :
  ((Norphone.initial word).1 = [] ∨ 0 < (Norphone.initial word).2)
  ∧ Forall (λ ch, ch ∉ u "DGWZ") (Norphone.initial word).1
  ∧ length (Norphone.initial word).1 ≤ 1.
Proof.
  unfold Norphone.initial.
  repeat (match goal with
          | |- context [if ?b then _ else _] => destruct b
          end;
          [simpl; split; [right; lia | split; [by_compute | lia]] |]).
  simpl. split; [by left | split; [constructor | lia]].
Qed.

Lemma code_of_reduced word :
  Forall (λ ch, ch ∉ u "DGWZ") (Norphone.code_of word).
Proof.
  unfold Norphone.code_of.
  pose proof (initial_spec word) as (_ & Hok & _).
  destruct (Norphone.initial word) as [code skip]. simpl in *.
  by apply loop_reduced.
Qed.

Lemma code_of_vowels word :
  Forall (λ ch, ch ∉ Norphone._uc_v_set) (drop 1 (Norphone.code_of word)).
Proof.
  unfold Norphone.code_of.
  pose proof (initial_spec word) as (Hstart & _ & Hlen).
  destruct (Norphone.initial word) as [code skip]. simpl in *.
  apply loop_vowels; [done | |].
  - intros _ ->. destruct Hstart; [done | lia].
  - destruct code as [|? [|? ?]]; simpl in *; [constructor.. | lia].
Qed.

End NorphoneFacts.

(** ** The built-in string operations *)

Section PyStrFacts.
Local Open Scope nat_scope.
Implicit Types (w old new p : str) (ch : N).

Lemma startswith_length w p :
  PyStr.startswith w p = true → length p ≤ length w.
Proof.
  revert w. induction p as [|a p IH]; intros [|b w]; simpl; try done; [lia|].
  intros [_ Hs]%andb_true_iff. apply IH in Hs. lia.
Qed.

Lemma startswith_nil w : PyStr.startswith w [] = true.
Proof. by destruct w. Qed.

Lemma slice_from_nat (n : nat) w : PyStr.slice_from (Z.of_nat n) w = drop n w.
Proof.
  unfold PyStr.slice_from, PyStr.clip.
  destruct (Z.ltb_spec (Z.of_nat n) 0); [lia|]. rewrite Nat2Z.id.
  destruct (decide (n ≤ length w)).
  - by rewrite Nat.min_r.
  - rewrite Nat.min_l by lia. by rewrite !drop_ge by lia.
Qed.

Lemma slice_to_pos (j : Z) w :
  (0 <= j)%Z → PyStr.slice_to j w = take (Z.to_nat j) w.
Proof.
  intros Hj. unfold PyStr.slice_to, PyStr.clip.
  destruct (Z.ltb_spec j 0); [lia|].
  destruct (decide (Z.to_nat j ≤ length w)).
  - by rewrite Nat.min_r.
  - rewrite Nat.min_l by lia. by rewrite !take_ge by lia.
Qed.

Lemma slice_0_take (n : nat) w :
  PyStr.slice 0 (Z.of_nat n) w = take n w.
Proof.
  unfold PyStr.slice, PyStr.clip. simpl.
  destruct (Z.ltb_spec (Z.of_nat n) 0); [lia|]. rewrite Nat2Z.id.
  rewrite Nat.min_0_r, Nat.sub_0_r, drop_0.
  destruct (decide (n ≤ length w)).
  - by rewrite Nat.min_r.
  - rewrite Nat.min_l by lia. by rewrite !take_ge by lia.
Qed.

(** A replacement keeps every property of characters that the word has
    and that the new text has wherever the old one occurs. *)
Lemma replace_from_Forall (P : N → Prop) old new : ∀ w skip,
  (∀ w', PyStr.startswith w' old = true → Forall P w' → Forall P new) →
  Forall P w → Forall P (PyStr.replace_from old new skip w).
Proof.
  induction w as [|ch w IH]; intros skip Hnew Hw;
    cbn [PyStr.replace_from]; [done|].
  inversion Hw as [|? ? Hch Hw']; subst.
  destruct skip as [|k]; [|by apply IH].
  destruct (PyStr.startswith (ch :: w) old) eqn:Hs.
  - apply Forall_app. split; [by apply (Hnew (ch :: w)) | by apply IH].
  - constructor; [done | by apply IH].
Qed.

Lemma replace_Forall (P : N → Prop) old new w :
  Forall P new → Forall P w → Forall P (PyStr.replace old new w).
Proof. intros Hnew. by apply replace_from_Forall. Qed.

(** Replacing a single character leaves none of it, unless the new text
    brings it back. *)
Lemma replace_char_gone ch new : ∀ w,
  ch ∉ new → ch ∉ PyStr.replace [ch] new w.
Proof.
  intros w Hnew. unfold PyStr.replace.
  induction w as [|b w IH];
    cbn [PyStr.replace_from PyStr.startswith length Nat.sub];
    [apply not_elem_of_nil|].
  rewrite startswith_nil, andb_true_r.
  destruct (N.eqb_spec ch b) as [->|Hne].
  - rewrite elem_of_app. tauto.
  - rewrite elem_of_cons. tauto.
Qed.

(** A replacement by one character never lengthens the word. *)
Lemma replace_from_length old ch : ∀ w skip,
  length (PyStr.replace_from old [ch] skip w) ≤ length w - skip.
Proof.
  induction w as [|b w IH]; intros skip;
    cbn [PyStr.replace_from length]; [lia|].
  destruct skip as [|k]; [|apply IH].
  destruct (PyStr.startswith (b :: w) old).
  - rewrite length_app. cbn [length].
    pose proof (IH (length old - 1)). lia.
  - cbn [length]. pose proof (IH 0). lia.
Qed.

(** It shortens the word when the old text has two characters or more and
    occurs. *)
Lemma replace_length_lt old ch : ∀ w,
  2 ≤ length old → PyStr.contains old w = true →
  length (PyStr.replace old [ch] w) < length w.
Proof.
  intros w Hold. unfold PyStr.replace.
  induction w as [|b w IH]; intros Hc.
  - cbn [PyStr.contains] in Hc. rewrite orb_false_r in Hc.
    apply startswith_length in Hc. cbn [length] in Hc. lia.
  - cbn [PyStr.replace_from PyStr.contains] in *.
    destruct (PyStr.startswith (b :: w) old) eqn:Hs.
    + apply startswith_length in Hs. rewrite length_app. cbn [length] in *.
      pose proof (replace_from_length old ch w (length old - 1)). lia.
    + rewrite orb_false_l in Hc. cbn [length]. apply IH in Hc. lia.
Qed.

End PyStrFacts.

(** ** SfinxBis: the title loop, the first sound, the digits *)

Section SfinxBisFacts.
Import Chr.
Local Open Scope nat_scope.
Implicit Types (w word t : str) (ch : N).

Local Ltac by_compute :=
  repeat match goal with
         | |- Forall _ ?l =>
             let l' := eval vm_compute in l in
             change l with l';
             first [apply Forall_nil_2
                   | apply Forall_cons_2; cbn beta iota delta [fst snd]]
         | |- _ => compute_done
         end.

(** The [while] loop is over within [length word] passes, and then the
    title occurs no more. *)
Lemma strip_title_done t : ∀ fuel word,
  2 ≤ length t → length word ≤ fuel →
  PyStr.contains t (SfinxBis.strip_title fuel t word) = false.
Proof.
  induction fuel as [|fuel IH]; intros word Ht Hfuel;
    cbn [SfinxBis.strip_title].
  - destruct word; [|simpl in Hfuel; lia].
    cbn [PyStr.contains]. rewrite orb_false_r.
    destruct (PyStr.startswith [] t) eqn:Hs; [|done].
    apply startswith_length in Hs. simpl in Hs. lia.
  - destruct (PyStr.contains t word) eqn:Hc; [|done].
    apply IH; [done|].
    pose proof (replace_length_lt t 32%N word Ht Hc) as Hlt.
    change (u " ") with [32%N]. lia.
Qed.

(** More passes than that change nothing. *)
Lemma strip_title_fuel t : ∀ fuel fuel' word,
  2 ≤ length t → length word ≤ fuel → length word ≤ fuel' →
  SfinxBis.strip_title fuel t word = SfinxBis.strip_title fuel' t word.
Proof.
  induction fuel as [|fuel IH]; intros fuel' word Ht Hf Hf'.
  - destruct word; [|simpl in Hf; lia].
    destruct fuel'; cbn [SfinxBis.strip_title]; [done|].
    destruct (PyStr.contains t []) eqn:Hc; [|done].
    cbn [PyStr.contains] in Hc. rewrite orb_false_r in Hc.
    apply startswith_length in Hc. simpl in Hc. lia.
  - cbn [SfinxBis.strip_title].
    destruct (PyStr.contains t word) eqn:Hc.
    + pose proof (replace_length_lt t 32%N word Ht Hc) as Hlt.
      change (u " ") with [32%N].
      destruct fuel' as [|fuel']; [lia|].
      cbn [SfinxBis.strip_title]. rewrite Hc.
      change (u " ") with [32%N]. apply IH; [done | lia | lia].
    + destruct fuel'; cbn [SfinxBis.strip_title]; [done | by rewrite Hc].
Qed.

Lemma titles_long :
  Forall (λ t, 3 ≤ length t) SfinxBis._adelstitler.
Proof. by_compute. Qed.

(** What [_koda_foersta_ljudet] returns: the word itself, or a character
    followed by the word without its first one, two or three
    characters. *)
Lemma koda_shape w :
  SfinxBis._koda_foersta_ljudet w = w
  ∨ ∃ (ch : N) (k : nat),
      1 ≤ k ≤ 3 ∧ w ≠ [] ∧ SfinxBis._koda_foersta_ljudet w = ch :: drop k w.
Proof.
  destruct w as [|a w]; [by left|].
  unfold SfinxBis._koda_foersta_ljudet.
  change 1%Z with (Z.of_nat 1). change 2%Z with (Z.of_nat 2).
  change 3%Z with (Z.of_nat 3). rewrite !slice_from_nat.
  repeat match goal with
         | |- context [if ?b then _ else _] => destruct b
         end;
    try (by left);
    right; eexists _, _; (split; [|split; [done | reflexivity]]); lia.
Qed.

Lemma koda_tail (P : N → Prop) w :
  Forall P w → Forall P (drop 1 (SfinxBis._koda_foersta_ljudet w)).
Proof.
  intros Hw. destruct (koda_shape w) as [->|(ch & k & Hk & _ & ->)].
  - by apply Forall_drop.
  - simpl. rewrite drop_0. by apply Forall_drop.
Qed.

End SfinxBisFacts.

(** ** SfinxBis: from the words to the codes *)

Section SfinxBisCodes.
Import Chr.
Local Open Scope nat_scope.
Implicit Types (w word : str) (ch : N).

Variable upper nfc : str → str.
Variable _delete_consecutive_repeats : str → str.
Variable iter : list N → list N.

Hypothesis repeats_deleted :
  ∀ w, _delete_consecutive_repeats w `sublist_of` w.

Local Ltac by_compute :=
  repeat match goal with
         | |- Forall _ ?l =>
             let l' := eval vm_compute in l in
             change l with l';
             first [apply Forall_nil_2
                   | apply Forall_cons_2; cbn beta iota delta [fst snd]]
         | |- _ => compute_done
         end.

Lemma translate_Forall (P Q : N → Prop) table w :
  (∀ ch, P ch →
         Q (default ch (snd <$> find (λ e, N.eqb (fst e) ch) table))) →
  Forall P w → Forall Q (PyStr.translate table w).
Proof.
  intros HPQ Hw. unfold PyStr.translate. apply Forall_map.
  apply (Forall_impl _ _ _ Hw). exact HPQ.
Qed.

(** [_substitutions] leaves no W. *)
Lemma substitutions_no_W w :
  Forall (λ ch, ch ≠ 87%N) (PyStr.translate SfinxBis._substitutions w).
Proof.
  apply (translate_Forall (λ _, True)); [|by apply Forall_true].
  intros ch _.
  destruct (find _ SfinxBis._substitutions) as [e|] eqn:Hf; simpl.
  - apply find_some in Hf as [Hin _].
    assert (Forall (λ e : N * N, e.2 ≠ 87%N) SfinxBis._substitutions) as Hall
      by by_compute.
    rewrite Forall_forall in Hall. apply Hall. by apply list_elem_of_In.
  - intros ->. vm_compute in Hf. discriminate.
Qed.

Lemma foersvensker_no_W w :
  Forall (λ ch, ch ≠ 87%N) (SfinxBis._foersvensker iter w).
Proof.
  unfold SfinxBis._foersvensker. cbv zeta.
  repeat (apply replace_Forall; [by_compute|]).
  apply substitutions_no_W.
Qed.

(** [_trans] turns every letter that is left, and the 8 of step 9, into a
    digit from 1 to 9. *)
Lemma trans_digit ch :
  (ch ∈ SfinxBis._uc_set ∧ ch ≠ 87%N ∧ ch ≠ 88%N) ∨ ch = 56%N →
  (49 ≤ default ch (snd <$> find (λ e, N.eqb (fst e) ch) SfinxBis._trans)
   ≤ 57)%N.
Proof.
  intros [(Hin & HW & HX) | ->]; [|vm_compute; split; discriminate].
  change SfinxBis._uc_set
    with [65; 66; 67; 68; 69; 70; 71; 72; 73; 74; 75; 76; 77; 78; 79; 80;
          81; 82; 83; 84; 85; 86; 87; 88; 89; 90; 196; 197; 214]%N in Hin.
  rewrite !elem_of_cons, elem_of_nil in Hin.
  repeat (destruct Hin as [->|Hin];
          [first [done | vm_compute; split; discriminate]|]).
  done.
Qed.

Lemma soft_C_step (vokal : N) w :
  Forall (λ ch, (ch ∈ SfinxBis._uc_set ∧ ch ≠ 87%N ∧ ch ≠ 88%N)
                ∨ ch = 56%N) w →
  Forall (λ ch, (ch ∈ SfinxBis._uc_set ∧ ch ≠ 87%N ∧ ch ≠ 88%N)
                ∨ ch = 56%N)
         (PyStr.replace (u "C" ++ [vokal]) (u "8" ++ [vokal]) w).
Proof.
  apply replace_from_Forall. intros w' Hs Hw'.
  destruct w' as [|a [|b w']]; simpl in Hs; try done;
    try (by rewrite andb_false_r in Hs).
  apply andb_true_iff in Hs as [_ Hs]. apply andb_true_iff in Hs as [Hb _].
  apply N.eqb_eq in Hb as <-.
  inversion Hw' as [|? ? _ Hw'']; subst.
  inversion Hw'' as [|? ? Hv _]; subst.
  constructor; [by right|]. by constructor.
Qed.

Lemma soft_C_loop (order : list N) : ∀ rest : list str,
  Forall (Forall (λ ch, (ch ∈ SfinxBis._uc_set ∧ ch ≠ 87%N ∧ ch ≠ 88%N)
                        ∨ ch = 56%N)) rest →
  Forall (Forall (λ ch, (ch ∈ SfinxBis._uc_set ∧ ch ≠ 87%N ∧ ch ≠ 88%N)
                        ∨ ch = 56%N))
    (foldl (λ rest vokal,
              map (PyStr.replace (u "C" ++ [vokal]) (u "8" ++ [vokal])) rest)
           rest order).
Proof.
  induction order as [|vokal order IH]; intros rest Hrest; simpl; [done|].
  apply IH. apply Forall_map. apply (Forall_impl _ _ _ Hrest).
  intros w. apply soft_C_step.
Qed.

(** Steps 8 to 11 leave digits from 1 to 8 only. *)
Lemma digits_of_spec (rest : list str) :
  Forall (Forall (λ ch, ch ∈ SfinxBis._uc_set ∧ ch ≠ 87%N)) rest →
  Forall (Forall (λ ch, (49 ≤ ch ≤ 56)%N))
         (SfinxBis.digits_of _delete_consecutive_repeats iter rest).
Proof.
  intros Hrest. unfold SfinxBis.digits_of. cbv zeta.
  apply Forall_map.
  apply Forall_map.
  apply Forall_map.
  assert (Forall (Forall (λ ch, (ch ∈ SfinxBis._uc_set ∧ ch ≠ 87%N
                                 ∧ ch ≠ 88%N) ∨ ch = 56%N))
            (map (PyStr.replace (u "X") (u "KS"))
               (map (PyStr.replace (u "DT") (u "T")) rest))) as H8.
  { apply Forall_map, Forall_map. apply (Forall_impl _ _ _ Hrest).
    intros w Hw.
    assert (Forall (λ ch, ch ∈ SfinxBis._uc_set ∧ ch ≠ 87%N)
              (PyStr.replace (u "X") (u "KS")
                 (PyStr.replace (u "DT") (u "T") w))) as H1.
    { apply replace_Forall; [by_compute|].
      apply replace_Forall; [by_compute | done]. }
    pose proof (replace_char_gone 88%N (u "KS")
                  (PyStr.replace (u "DT") (u "T") w)
                  ltac:(compute_done)) as HX.
    change [88%N] with (u "X") in HX.
    rewrite Forall_forall in H1. apply Forall_forall. intros ch Hch.
    left. destruct (H1 ch Hch) as [? ?]. repeat split; try done.
    intros ->. by apply HX. }
  apply (soft_C_loop (iter SfinxBis._mjuka_vokaler)) in H8. apply (Forall_impl _ _ _ H8).
  intros w Hw.
  assert (Forall (λ ch, (49 ≤ ch ≤ 57)%N)
            (_delete_consecutive_repeats
               (PyStr.translate SfinxBis._trans w))) as H10.
  { eapply Forall_sublist; [apply repeats_deleted|].
    apply (translate_Forall _ _ _ _ trans_digit Hw). }
  pose proof (replace_char_gone 57%N []
                (_delete_consecutive_repeats
                   (PyStr.translate SfinxBis._trans w))
                ltac:(apply not_elem_of_nil)) as H9.
  change [57%N] with (u "9") in H9.
  assert (Forall (λ ch, (49 ≤ ch ≤ 57)%N)
            (PyStr.replace (u "9") []
               (_delete_consecutive_repeats
                  (PyStr.translate SfinxBis._trans w)))) as H11
    by (apply replace_Forall; [constructor | done]).
  rewrite Forall_forall in H11. apply Forall_forall. intros ch Hch.
  pose proof (H11 ch Hch).
  assert (ch ≠ 57%N) by (intros ->; by apply H9). lia.
Qed.

Lemma Forall_filter_both (P : N → Prop) (Q : N → Prop)
    `{∀ ch, Decision (Q ch)} w :
  Forall P w → Forall (λ ch, Q ch ∧ P ch) (filter Q w).
Proof.
  rewrite !Forall_forall. intros Hw ch [HQ Hin]%list_elem_of_filter.
  split; [done | by apply Hw].
Qed.

Lemma zip_with_codes (D : N → Prop) : ∀ firsts rest : list str,
  Forall (λ f, length f ≤ 1) firsts →
  Forall (Forall D) rest →
  Forall (λ code, Forall D (drop 1 code))
         (zip_with (λ first rest, first ++ rest) firsts rest).
Proof.
  induction firsts as [|f firsts IH]; intros [|r rest] Hf Hr; simpl;
    try constructor.
  - inversion Hf as [|? ? Hlen _]; subst.
    inversion Hr as [|? ? HD _]; subst.
    eapply Forall_sublist; [apply drop_1_app_sublist|].
    destruct f as [|? [|? ?]]; simpl in *; [done | done | lia].
  - inversion Hf; inversion Hr; subst. by apply IH.
Qed.

(** In every code, whatever follows the first character is a digit from
    1 to 8. *)
Lemma encode_digits word (max_length : Z) :
  Forall (λ code, Forall (λ ch, (49 ≤ ch ≤ 56)%N) (drop 1 code))
         (SfinxBis.encode upper nfc _delete_consecutive_repeats iter
            word max_length).
Proof.
  unfold SfinxBis.encode. cbv zeta.
  destruct (map _delete_consecutive_repeats
              (SfinxBis.words_of upper nfc word)) as [|w0 ws] eqn:Hws.
  { constructor; [constructor | constructor]. }
  set (ordlista := w0 :: ws). clearbody ordlista.
  set (kodad := map SfinxBis._koda_foersta_ljudet _).
  assert (Forall (λ code, Forall (λ ch, (49 ≤ ch ≤ 56)%N) (drop 1 code))
            (zip_with (λ first rest, first ++ rest)
               (map (PyStr.slice 0 1) kodad)
               (SfinxBis.digits_of _delete_consecutive_repeats iter
                  (map (PyStr.slice_from 1) kodad)))) as Hcodes.
  { apply zip_with_codes.
    - apply Forall_map, Forall_true. intros w.
      change 1%Z with (Z.of_nat 1). rewrite slice_0_take, length_take. lia.
    - apply digits_of_spec. subst kodad.
      apply Forall_map, Forall_map, Forall_map, Forall_map, Forall_true.
      intros w. change 1%Z with (Z.of_nat 1). rewrite slice_from_nat.
      apply koda_tail, Forall_filter_both, foersvensker_no_W. }
  destruct (0 <? max_length)%Z eqn:Hm; [|done].
  apply Forall_map. apply (Forall_impl _ _ _ Hcodes).
  intros code Hcode. rewrite slice_to_pos by lia.
  eapply Forall_sublist; [|exact Hcode].
  apply sublist_drop_1, sublist_take.
Qed.

Lemma soft_C_loop_length (order : list N) : ∀ rest : list str,
  length (foldl (λ rest vokal,
                   map (PyStr.replace (u "C" ++ [vokal]) (u "8" ++ [vokal]))
                       rest)
                rest order)
  = length rest.
Proof.
  induction order as [|v vs IH]; intros rest; simpl; [done|].
  by rewrite IH, length_map.
Qed.

Lemma digits_of_length (rest : list str) :
  length (SfinxBis.digits_of _delete_consecutive_repeats iter rest)
  = length rest.
Proof.
  unfold SfinxBis.digits_of. cbv zeta.
  by rewrite !length_map, soft_C_loop_length, !length_map.
Qed.

(** One code for every word left, and one empty code when none is. *)
Lemma encode_length word (max_length : Z) :
  length (SfinxBis.encode upper nfc _delete_consecutive_repeats iter
            word max_length)
  = Nat.max 1 (length (SfinxBis.words_of upper nfc word)).
Proof.
  unfold SfinxBis.encode. cbv zeta.
  destruct (SfinxBis.words_of upper nfc word) as [|w0 ws]; [done|].
  remember (map _delete_consecutive_repeats (w0 :: ws)) as ordlista
    eqn:Hord.
  assert (length ordlista = S (length ws)) as Hlen
    by (subst ordlista; cbn [map length]; by rewrite length_map).
  destruct ordlista as [|o os]; [simpl in Hlen; lia|].
  destruct (0 <? max_length)%Z;
    rewrite ?length_map, length_zip_with, digits_of_length, !length_map,
      Hlen; cbn [length]; lia.
Qed.

(** [max_length] only cuts the codes. *)
Lemma encode_max_length word (max_length : Z) :
  SfinxBis.encode upper nfc _delete_consecutive_repeats iter word max_length
  = if (0 <? max_length)%Z
    then map (take (Z.to_nat max_length))
           (SfinxBis.encode upper nfc _delete_consecutive_repeats iter
              word (-1))
    else SfinxBis.encode upper nfc _delete_consecutive_repeats iter
           word (-1).
Proof.
  unfold SfinxBis.encode. cbv zeta.
  destruct (map _delete_consecutive_repeats
              (SfinxBis.words_of upper nfc word)) as [|w0 ws].
  - destruct (0 <? max_length)%Z; [|done].
    simpl. by rewrite take_nil.
  - change (0 <? -1)%Z with false. cbv iota.
    destruct (Z.ltb_spec 0 max_length); [|done].
    apply map_ext. intros code. apply slice_to_pos. lia.
Qed.

End SfinxBisCodes.

(** ** Statements *)

(** X6.  Whatever the word, a Norphone code holds no D, G, W or Z, as
    long as [_delete_consecutive_repeats] only deletes characters. *)
Theorem Norphone_reduced_alphabet :
  ∀ (upper _delete_consecutive_repeats : str → str),
    (∀ w, _delete_consecutive_repeats w `sublist_of` w) →
    ∀ word : str,
      Forall (λ ch, ch ∉ Chr.u "DGWZ")
             (Norphone.encode upper _delete_consecutive_repeats word).
Proof.
  intros upper dcr Hdcr word. unfold Norphone.encode.
  eapply Forall_sublist; [apply Hdcr | apply code_of_reduced].
Qed.

Lemma Norphone_reduced_alphabet_witness :
  Forall (λ ch, ch ∉ Chr.u "DGWZ")
         (Norphone.encode (λ w, w) Phonetic.delete_repeats
            (Chr.u "GODDAG")).
Proof.
  apply (Norphone_reduced_alphabet (λ w, w) Phonetic.delete_repeats).
  apply delete_repeats_sublist.
Defined.

(** X7.  A Norphone code has no vowel after its first character, as long
    as [_delete_consecutive_repeats] only deletes characters. *)
Theorem Norphone_vowel_only_first :
  ∀ (upper _delete_consecutive_repeats : str → str),
    (∀ w, _delete_consecutive_repeats w `sublist_of` w) →
    ∀ word : str,
      Forall (λ ch, ch ∉ Norphone._uc_v_set)
             (drop 1 (Norphone.encode upper _delete_consecutive_repeats
                        word)).
Proof.
  intros upper dcr Hdcr word. unfold Norphone.encode.
  eapply Forall_sublist; [apply sublist_drop_1, Hdcr | apply code_of_vowels].
Qed.

Lemma Norphone_vowel_only_first_witness :
  Forall (λ ch, ch ∉ Norphone._uc_v_set)
         (drop 1 (Norphone.encode (λ w, w) Phonetic.delete_repeats
                    (Chr.u "AAGAARD"))).
Proof.
  apply (Norphone_vowel_only_first (λ w, w) Phonetic.delete_repeats).
  apply delete_repeats_sublist.
Defined.

(** X8.  In every SfinxBis code, each character after the first is a
    digit from 1 to 8, for every word, every [max_length] and every
    iteration order of the sets, as long as
    [_delete_consecutive_repeats] only deletes characters. *)
Theorem SfinxBis_code_digits :
  ∀ (upper nfc _delete_consecutive_repeats : str → str)
    (iter : list N → list N),
    (∀ w, _delete_consecutive_repeats w `sublist_of` w) →
    ∀ (word : str) (max_length : Z),
      Forall (λ code, Forall (λ ch, (49 ≤ ch ≤ 56)%N) (drop 1 code))
             (SfinxBis.encode upper nfc _delete_consecutive_repeats iter
                word max_length).
Proof.
  intros upper nfc dcr iter Hdcr word max_length.
  by apply encode_digits.
Qed.

Lemma SfinxBis_code_digits_witness :
  Forall (λ code, Forall (λ ch, (49 ≤ ch ≤ 56)%N) (drop 1 code))
         (SfinxBis.encode (λ w, w) (λ w, w) Phonetic.delete_repeats
            (λ s, s) (Chr.u "VON DER PFALZ") (-1)).
Proof.
  apply (SfinxBis_code_digits (λ w, w) (λ w, w) Phonetic.delete_repeats
           (λ s, s)).
  apply delete_repeats_sublist.
Defined.

(** X9.  [SfinxBis.encode] returns one code for every word that is left
    after the titles are removed and the name is split, and a single
    empty code when no word is left. *)
Theorem SfinxBis_one_code_per_word :
  ∀ (upper nfc _delete_consecutive_repeats : str → str)
    (iter : list N → list N) (word : str) (max_length : Z),
    length (SfinxBis.encode upper nfc _delete_consecutive_repeats iter
              word max_length)
    = Nat.max 1 (length (SfinxBis.words_of upper nfc word))
    ∧ (SfinxBis.words_of upper nfc word = [] →
       SfinxBis.encode upper nfc _delete_consecutive_repeats iter
         word max_length = [[]]).
Proof.
  intros upper nfc dcr iter word max_length. split.
  - apply encode_length.
  - intros Hw. unfold SfinxBis.encode. by rewrite Hw.
Qed.

(** X10.  A positive [max_length] cuts every code to that many
    characters and does nothing else; any other [max_length] gives the
    codes of the default, -1. *)
Theorem SfinxBis_max_length_cuts :
  ∀ (upper nfc _delete_consecutive_repeats : str → str)
    (iter : list N → list N) (word : str) (max_length : Z),
    SfinxBis.encode upper nfc _delete_consecutive_repeats iter
      word max_length
    = if (0 <? max_length)%Z
      then map (take (Z.to_nat max_length))
             (SfinxBis.encode upper nfc _delete_consecutive_repeats iter
                word (-1))
      else SfinxBis.encode upper nfc _delete_consecutive_repeats iter
             word (-1).
Proof. intros. apply encode_max_length. Qed.

(** X11.  For every title of the list, the loop that removes it is over
    within as many passes as the word has characters: more passes change
    nothing, and the title no longer occurs in the result. *)
Theorem SfinxBis_title_loop_ends :
  ∀ (adelstitel word : str) (passes : nat),
    adelstitel ∈ SfinxBis._adelstitler →
    length word ≤ passes →
    SfinxBis.strip_title passes adelstitel word
    = SfinxBis.strip_title (length word) adelstitel word
    ∧ PyStr.contains adelstitel
        (SfinxBis.strip_title (length word) adelstitel word) = false.
Proof.
  intros t word passes Ht Hp.
  pose proof titles_long as Hlong. rewrite Forall_forall in Hlong.
  pose proof (Hlong t Ht). split.
  - apply strip_title_fuel; lia.
  - apply strip_title_done; lia.
Qed.

Lemma SfinxBis_title_loop_ends_witness :
  SfinxBis.strip_title 40 (Chr.u " AF ") (Chr.u "A AF AF  AF B")
  = SfinxBis.strip_title 13 (Chr.u " AF ") (Chr.u "A AF AF  AF B")
  ∧ PyStr.contains (Chr.u " AF ")
      (SfinxBis.strip_title 13 (Chr.u " AF ") (Chr.u "A AF AF  AF B"))
    = false.
Proof.
  apply (SfinxBis_title_loop_ends (Chr.u " AF ") (Chr.u "A AF AF  AF B") 40).
  - compute_done.
  - vm_compute. lia.
Defined.

(** X12.  [_koda_foersta_ljudet] returns the empty word for the empty word
    only, never lengthens the word, and changes nothing beyond the first
    three characters: what follows the first character of the result is
    an end of the word. *)
Theorem SfinxBis_first_sound_shape :
  ∀ w : str,
    (SfinxBis._koda_foersta_ljudet w = [] ↔ w = []) ∧
    length (SfinxBis._koda_foersta_ljudet w) ≤ length w ∧
    drop 1 (SfinxBis._koda_foersta_ljudet w) `suffix_of` w ∧
    length w - 3 ≤ length (drop 1 (SfinxBis._koda_foersta_ljudet w)).
Proof.
  intros w. destruct (koda_shape w) as [->|(ch & k & Hk & Hw & ->)].
  - split; [done|]. split; [done|]. split; [apply suffix_drop|].
    rewrite length_drop. lia.
  - split; [done|]. cbn [drop length]. rewrite drop_0, length_drop.
    destruct w as [|a w]; [done|]. cbn [length].
    split; [lia|]. split; [apply suffix_drop | lia].
Qed.

(** ** The function that deletes repeats meets what its name promises *)

Lemma delete_repeats_head (a : N) (w : str) :
  ∃ r, Phonetic.delete_repeats (a :: w) = a :: r.
Proof.
  revert a. induction w as [|b w IH]; intros a; [by exists []|].
  cbn [Phonetic.delete_repeats].
  destruct (N.eqb_spec a b) as [->|Hab]; [apply IH | eauto].
Qed.

Lemma delete_repeats_no_repeat (w : str) :
  Phonetic.no_repeat (Phonetic.delete_repeats w) = true.
Proof.
  induction w as [|a w IH]; [done|].
  destruct w as [|b w]; [done|].
  change (Phonetic.delete_repeats (a :: b :: w))
    with (if N.eqb a b then Phonetic.delete_repeats (b :: w)
          else a :: Phonetic.delete_repeats (b :: w)).
  destruct (N.eqb_spec a b) as [->|Hab]; [done|].
  destruct (delete_repeats_head b w) as [r Hr]. rewrite Hr in *.
  change (Phonetic.no_repeat (a :: b :: r))
    with (negb (N.eqb a b) && Phonetic.no_repeat (b :: r)).
  rewrite IH, andb_true_r. by destruct (N.eqb_spec a b).
Qed.

Lemma delete_repeats_fixed (w : str) :
  Phonetic.no_repeat w = true → Phonetic.delete_repeats w = w.
Proof.
  induction w as [|a w IH]; [done|].
  destruct w as [|b w]; [done|].
  change (Phonetic.no_repeat (a :: b :: w))
    with (negb (N.eqb a b) && Phonetic.no_repeat (b :: w)).
  change (Phonetic.delete_repeats (a :: b :: w))
    with (if N.eqb a b then Phonetic.delete_repeats (b :: w)
          else a :: Phonetic.delete_repeats (b :: w)).
  intros [Hab Hw]%andb_true_iff.
  destruct (N.eqb a b); [done|]. by rewrite IH.
Qed.

(** ** SfinxBis: the order in which the sets are enumerated matters *)

Section SetOrder.
Import Chr.

Lemma written_order_Permutation s : SfinxBis.written_order s ≡ₚ s.
Proof. done. Qed.

Lemma soft_from_Y_Permutation s : SfinxBis.soft_from_Y s ≡ₚ s.
Proof.
  unfold SfinxBis.soft_from_Y. case_decide as Hs; [|done]. subst s.
  change (u "YEI" ++ [A_uml; O_uml]) with (89%N :: [69; 73]%N ++ [196; 214]%N).
  change SfinxBis._mjuka_vokaler with ([69; 73]%N ++ 89%N :: [196; 214]%N).
  apply Permutation_middle.
Qed.

Variable upper nfc : str → str.
Variable _delete_consecutive_repeats : str → str.

Hypothesis upper_BEYIG : nfc (upper (u "BEYIG")) = u "BEYIG".
Hypothesis repeats_deleted :
  ∀ w, _delete_consecutive_repeats w `sublist_of` w.
Hypothesis no_repeat_left :
  ∀ w, Phonetic.no_repeat (_delete_consecutive_repeats w) = true.
Hypothesis no_repeat_kept :
  ∀ w, Phonetic.no_repeat w = true → _delete_consecutive_repeats w = w.

Lemma words_of_BEYIG :
  SfinxBis.words_of upper nfc (u "BEYIG") = [u "BEYIG"].
Proof. unfold SfinxBis.words_of. rewrite upper_BEYIG. by vm_compute. Qed.

Local Ltac eval_digits :=
  unfold SfinxBis.digits_of; cbv zeta;
  match goal with
  | |- context [map _delete_consecutive_repeats ?X] =>
      let v := eval vm_compute in X in change X with v
  end;
  cbn [map].

Lemma encode_BEYIG_written :
  SfinxBis.encode upper nfc _delete_consecutive_repeats
    SfinxBis.written_order (u "BEYIG") (-1) = [u "B22"].
Proof.
  unfold SfinxBis.encode. cbv zeta. rewrite words_of_BEYIG. cbn [map].
  rewrite (no_repeat_kept (u "BEYIG")) by by vm_compute.
  eval_digits.
  rewrite (no_repeat_kept [57; 50; 57; 50]%N) by by vm_compute.
  by vm_compute.
Qed.

Lemma encode_BEYIG_from_Y :
  SfinxBis.encode upper nfc _delete_consecutive_repeats
    SfinxBis.soft_from_Y (u "BEYIG") (-1) ≠ [u "B22"].
Proof.
  unfold SfinxBis.encode. cbv zeta. rewrite words_of_BEYIG. cbn [map].
  rewrite (no_repeat_kept (u "BEYIG")) by by vm_compute.
  eval_digits.
  pose proof (repeats_deleted [57; 50; 50; 50]%N) as Hsub.
  pose proof (no_repeat_left [57; 50; 50; 50]%N) as Hnr.
  revert Hsub Hnr.
  generalize (_delete_consecutive_repeats [57; 50; 50; 50]%N). intros d.
  intros Hsub Hnr.
  repeat match type of Hsub with
         | _ `sublist_of` _ :: _ =>
             apply sublist_cons_r in Hsub as [Hsub|(? & -> & Hsub)]
         | _ `sublist_of` [] => apply sublist_nil_r in Hsub as ->
         end;
    first [ vm_compute in Hnr; discriminate Hnr
          | intros Heq; vm_compute in Heq; discriminate Heq ].
Qed.

End SetOrder.

(** ** Norphone: the length of the code *)

Section NorphoneLength.
Import Chr.
Local Open Scope nat_scope.
Implicit Types (word chars code out : str) (pos skip : nat).

Local Ltac by_compute :=
  repeat match goal with
         | |- Forall _ ?l =>
             let l' := eval vm_compute in l in
             change l with l';
             first [apply Forall_nil_2
                   | apply Forall_cons_2; cbn beta iota delta [fst snd]]
         | |- _ => compute_done
         end.

(** Every position of the word adds two characters at most. *)
Lemma loop_length word : ∀ chars pos code skip,
  length (Norphone.loop word chars pos code skip)
  ≤ length code + 2 * (length chars - skip).
Proof.
  induction chars as [|char chars IH]; intros pos code skip;
    cbn [Norphone.loop length]; [lia|].
  destruct skip as [|skip].
  - destruct (Norphone.first_match word pos Norphone.lengths)
      as [[len out]|] eqn:Hm.
    + assert (length out ≤ 2) as Hout.
      { revert Hm. apply (first_match_Some (λ o, length o ≤ 2)).
        apply (replacements_Forall (λ o, length o ≤ 2)). by_compute. }
      pose proof (IH (S pos) (code ++ out) (len - 1)) as Hle.
      rewrite length_app in Hle. lia.
    + destruct (_ || _).
      * pose proof (IH (S pos) (code ++ [char]) 0) as Hle.
        rewrite length_app in Hle. simpl in Hle. lia.
      * pose proof (IH (S pos) code 0). lia.
  - pose proof (IH (S pos) code skip). lia.
Qed.

Lemma clip_neg len (n : nat) :
  PyStr.clip len (- Z.of_nat (S n))%Z = len - S n.
Proof.
  unfold PyStr.clip.
  destruct (Z.ltb_spec (- Z.of_nat (S n))%Z 0); lia.
Qed.

Lemma final_length word : length (Norphone.final word) ≤ length word.
Proof.
  unfold Norphone.final.
  destruct (PyStr.eqb _ _) eqn:Hdt.
  - apply bool_decide_eq_true in Hdt.
    apply (f_equal length) in Hdt.
    unfold PyStr.slice_from, PyStr.slice_to in *.
    change (-2)%Z with (- Z.of_nat 2)%Z in *. rewrite clip_neg in *.
    rewrite length_drop in Hdt. change (length (u "DT")) with 2 in Hdt.
    rewrite length_app, length_take. simpl. lia.
  - destruct (_ && _).
    + unfold PyStr.slice_to. rewrite length_take. lia.
    + done.
Qed.

Lemma code_of_length word :
  length (Norphone.code_of word) ≤ 2 * length word.
Proof.
  destruct word as [|a word]; [done|].
  unfold Norphone.code_of.
  pose proof (initial_spec (a :: word)) as (Hstart & _ & Hlen).
  pose proof (final_length (a :: word)) as Hfin.
  destruct (Norphone.initial (a :: word)) as [code skip].
  cbn [fst snd] in *.
  pose proof (loop_length (Norphone.final (a :: word))
                (Norphone.final (a :: word)) 0 code skip) as Hloop.
  cbn [length] in *.
  destruct Hstart as [->|Hskip]; simpl in *; lia.
Qed.

End NorphoneLength.

(** ** SfinxBis: names made of white space *)

Section Blank.
Import Chr.
Local Open Scope nat_scope.
Implicit Types (w old new p t : str) (ch : N).

Lemma startswith_missing w p ch :
  ch ∈ p → ch ∉ w → PyStr.startswith w p = false.
Proof.
  revert w. induction p as [|a p IH]; intros w Hp Hw.
  - by apply not_elem_of_nil in Hp.
  - destruct w as [|b w]; [done|]. cbn [PyStr.startswith].
    apply not_elem_of_cons in Hw as [Hne Hw].
    apply elem_of_cons in Hp as [->|Hp].
    + destruct (N.eqb_spec a b); [congruence | done].
    + rewrite (IH w Hp Hw). apply andb_false_r.
Qed.

Lemma contains_missing w p ch :
  ch ∈ p → ch ∉ w → PyStr.contains p w = false.
Proof.
  intros Hp. induction w as [|b w IH]; intros Hw;
    cbn [PyStr.contains]; rewrite (startswith_missing _ p ch) by done.
  - done.
  - apply not_elem_of_cons in Hw as [_ Hw]. by apply IH.
Qed.

Lemma replace_missing old new w ch :
  ch ∈ old → ch ∉ w → PyStr.replace old new w = w.
Proof.
  intros Hp. unfold PyStr.replace.
  induction w as [|b w IH]; intros Hw; cbn [PyStr.replace_from]; [done|].
  rewrite (startswith_missing _ old ch) by done.
  apply not_elem_of_cons in Hw as [_ Hw]. by rewrite IH.
Qed.

Lemma space_not_elem w ch :
  Forall (λ c, PyStr.isspace c = true) w → PyStr.isspace ch = false →
  ch ∉ w.
Proof.
  rewrite Forall_forall. intros Hw Hch Hin. apply Hw in Hin. congruence.
Qed.

Lemma titles_lettered :
  Forall (λ t, existsb (λ c, negb (PyStr.isspace c)) (drop 1 t) = true)
         SfinxBis._adelstitler.
Proof.
  repeat match goal with
         | |- Forall _ ?l =>
             let l' := eval vm_compute in l in
             change l with l';
             first [apply Forall_nil_2 | apply Forall_cons_2]
         | |- _ => by vm_compute
         end.
Qed.

Lemma remove_title_blank w t :
  existsb (λ c, negb (PyStr.isspace c)) (drop 1 t) = true →
  Forall (λ c, PyStr.isspace c = true) w →
  SfinxBis.remove_title w t = w.
Proof.
  intros Ht Hw. apply existsb_exists in Ht as (ch & Hin & Hch).
  apply list_elem_of_In in Hin. apply negb_true_iff in Hch.
  pose proof (space_not_elem w ch Hw Hch) as Hmiss.
  assert (ch ∈ t) as Hint.
  { apply (elem_of_sublist (drop 1 t)); [done | apply sublist_drop]. }
  unfold SfinxBis.remove_title.
  assert (∀ fuel, SfinxBis.strip_title fuel t w = w) as ->.
  { intros [|fuel]; cbn [SfinxBis.strip_title]; [done|].
    by rewrite (contains_missing w t ch). }
  change 1%Z with (Z.of_nat 1). rewrite slice_from_nat.
  by rewrite (startswith_missing w (drop 1 t) ch).
Qed.

Lemma split_blank w :
  Forall (λ c, PyStr.isspace c = true) w → PyStr.split w = [].
Proof.
  unfold PyStr.split. induction 1 as [|c w Hc _ IH]; [done|].
  cbn [PyStr.split_from]. by rewrite Hc.
Qed.

Lemma words_of_blank (upper nfc : str → str) word :
  Forall (λ c, PyStr.isspace c = true) (nfc (upper word)) →
  SfinxBis.words_of upper nfc word = [].
Proof.
  intros Hw. unfold SfinxBis.words_of. cbv zeta.
  rewrite (replace_missing [Eszett] _ _ Eszett);
    [|left | by apply space_not_elem].
  rewrite (replace_missing (u "-") _ _ 45%N);
    [|left | by apply space_not_elem].
  assert (∀ ts, Forall (λ t, existsb (λ c, negb (PyStr.isspace c))
                               (drop 1 t) = true) ts →
                foldl SfinxBis.remove_title (nfc (upper word)) ts
                = nfc (upper word)) as Hfold.
  { induction 1 as [|t ts Ht _ IH]; [done|]. cbn [foldl].
    by rewrite remove_title_blank. }
  rewrite Hfold by apply titles_lettered.
  by apply split_blank.
Qed.

End Blank.

(** ** Statements, continued *)

(** X13.  The SfinxBis code of a word can depend on the order in which
    the set of soft vowels is enumerated.  Both orders below enumerate
    every set in full; for BEYIG the order of the source text turns the
    word into BEJIG and gives the code B22, while the order that starts
    from Y turns it into BEJJG and gives another code.  This holds for
    every upper-casing that leaves BEYIG alone and every
    [_delete_consecutive_repeats] that only deletes characters, leaves no
    two equal neighbours, and keeps a word without equal neighbours. *)
Theorem SfinxBis_set_order_matters :
  ∀ (upper nfc _delete_consecutive_repeats : str → str),
    nfc (upper (Chr.u "BEYIG")) = Chr.u "BEYIG" →
    (∀ w, _delete_consecutive_repeats w `sublist_of` w) →
    (∀ w, Phonetic.no_repeat (_delete_consecutive_repeats w) = true) →
    (∀ w, Phonetic.no_repeat w = true → _delete_consecutive_repeats w = w) →
    (∀ s, SfinxBis.written_order s ≡ₚ s) ∧
    (∀ s, SfinxBis.soft_from_Y s ≡ₚ s) ∧
    SfinxBis._foersvensker SfinxBis.written_order (Chr.u "BEYIG")
      = Chr.u "BEJIG" ∧
    SfinxBis._foersvensker SfinxBis.soft_from_Y (Chr.u "BEYIG")
      = Chr.u "BEJJG" ∧
    SfinxBis.encode upper nfc _delete_consecutive_repeats
      SfinxBis.written_order (Chr.u "BEYIG") (-1) = [Chr.u "B22"] ∧
    SfinxBis.encode upper nfc _delete_consecutive_repeats
      SfinxBis.soft_from_Y (Chr.u "BEYIG") (-1) ≠ [Chr.u "B22"].
Proof.
  intros upper nfc dcr Hup Hsub Hnr Hkeep.
  split; [apply written_order_Permutation|].
  split; [apply soft_from_Y_Permutation|].
  split; [by vm_compute|]. split; [by vm_compute|].
  split.
  - by apply encode_BEYIG_written.
  - by apply encode_BEYIG_from_Y.
Qed.

Lemma SfinxBis_set_order_matters_witness :
  SfinxBis.encode (λ w, w) (λ w, w) Phonetic.delete_repeats
    SfinxBis.written_order (Chr.u "BEYIG") (-1) = [Chr.u "B22"] ∧
  SfinxBis.encode (λ w, w) (λ w, w) Phonetic.delete_repeats
    SfinxBis.soft_from_Y (Chr.u "BEYIG") (-1) ≠ [Chr.u "B22"].
Proof.
  apply (SfinxBis_set_order_matters (λ w, w) (λ w, w)
           Phonetic.delete_repeats).
  - reflexivity.
  - apply delete_repeats_sublist.
  - apply delete_repeats_no_repeat.
  - apply delete_repeats_fixed.
Defined.

(** X14.  A Norphone code is at most twice as long as the upper-cased
    word, as long as [_delete_consecutive_repeats] only deletes
    characters. *)
Theorem Norphone_code_length :
  ∀ (upper _delete_consecutive_repeats : str → str),
    (∀ w, _delete_consecutive_repeats w `sublist_of` w) →
    ∀ word : str,
      length (Norphone.encode upper _delete_consecutive_repeats word)
      ≤ 2 * length (upper word).
Proof.
  intros upper dcr Hdcr word. unfold Norphone.encode.
  pose proof (sublist_length _ _ (Hdcr (Norphone.code_of (upper word)))).
  pose proof (code_of_length (upper word)). lia.
Qed.

Lemma Norphone_code_length_witness :
  length (Norphone.encode (λ w, w) Phonetic.delete_repeats (Chr.u "XAXA"))
  ≤ 2 * length (Chr.u "XAXA").
Proof.
  apply (Norphone_code_length (λ w, w) Phonetic.delete_repeats).
  apply delete_repeats_sublist.
Defined.

(** X15.  A name that holds white space only once it is upper-cased, the
    empty name included, gets the single empty code. *)
Theorem SfinxBis_blank_name :
  ∀ (upper nfc _delete_consecutive_repeats : str → str)
    (iter : list N → list N) (word : str) (max_length : Z),
    Forall (λ ch, PyStr.isspace ch = true) (nfc (upper word)) →
    SfinxBis.encode upper nfc _delete_consecutive_repeats iter
      word max_length = [[]].
Proof.
  intros upper nfc dcr iter word max_length Hw.
  unfold SfinxBis.encode. by rewrite words_of_blank.
Qed.

Lemma SfinxBis_blank_name_witness :
  SfinxBis.encode (λ w, w) (λ w, w) Phonetic.delete_repeats (λ s, s)
    [32; 9; 32]%N 4 = [[]].
Proof.
  apply (SfinxBis_blank_name (λ w, w) (λ w, w) Phonetic.delete_repeats
           (λ s, s) [32; 9; 32]%N 4).
  repeat constructor.
Defined.

(** ** The examples of the docstrings

    Evaluated on words already in upper case, with [delete_repeats] for
    the method of the base class and the sets enumerated as written. *)

Example Norphone_docstring :
  let encode := Norphone.encode (λ w, w) Phonetic.delete_repeats in
  encode (Chr.u "HANSEN") = Chr.u "HNSN"
  ∧ encode (Chr.u "LARSEN") = Chr.u "LRSN"
  ∧ encode (Chr.u "AAGAARD") = Chr.A_ring :: Chr.u "KRT"
  ∧ encode (Chr.u "BRAATEN") = Chr.u "BRTN"
  ∧ encode (Chr.u "SANDVIK") = Chr.u "SNVK".
Proof. by vm_compute. Qed.

Example SfinxBis_docstring :
  let encode w :=
    SfinxBis.sfinxbis (λ w, w) (λ w, w) Phonetic.delete_repeats
      SfinxBis.written_order w None in
  encode (Chr.u "CHRISTOPHER") = [Chr.u "K68376"]
  ∧ encode (Chr.u "NIALL") = [Chr.u "N4"]
  ∧ encode (Chr.u "SMITH") = [Chr.u "S53"]
  ∧ encode (Chr.u "SCHMIDT") = [Chr.u "S53"]
  ∧ encode (Chr.u "JOHANSSON") = [Chr.u "J585"]
  ∧ encode (Chr.u "SJ" ++ [Chr.O_uml] ++ Chr.u "BERG") = [Chr.u "#162"].
Proof. by vm_compute. Qed.

Example PyStr_builtins :
  PyStr.replace (Chr.u "AA") (Chr.u "B") (Chr.u "AAAXAA") = Chr.u "BAXB"
  ∧ PyStr.split (Chr.u "  AB  C D ") = [Chr.u "AB"; Chr.u "C"; Chr.u "D"]
  ∧ PyStr.slice (-2) (-1) (Chr.u "ABC") = Chr.u "B"
  ∧ PyStr.slice (-2) (-1) (Chr.u "A") = []
  ∧ PyStr.slice_to (-2) (Chr.u "A") = []
  ∧ PyStr.slice_from (-2) (Chr.u "A") = Chr.u "A".
Proof. by vm_compute. Qed.

(** ** SfinxBis: the first character of a code *)

Section FirstCharacter.
Import Chr.
Local Open Scope nat_scope.
Implicit Types (w word : str) (ch : N).

Variable upper nfc : str → str.
Variable _delete_consecutive_repeats : str → str.
Variable iter : list N → list N.

Hypothesis repeats_deleted :
  ∀ w, _delete_consecutive_repeats w `sublist_of` w.

Local Ltac by_compute :=
  repeat match goal with
         | |- Forall _ ?l =>
             let l' := eval vm_compute in l in
             change l with l';
             first [apply Forall_nil_2
                   | apply Forall_cons_2; cbn beta iota delta [fst snd]]
         | |- _ => compute_done
         end.

(** [_substitutions] leaves no Z either. *)
Lemma foersvensker_no_Z w :
  Forall (λ ch, ch ≠ 90%N) (SfinxBis._foersvensker iter w).
Proof.
  unfold SfinxBis._foersvensker. cbv zeta.
  repeat (apply replace_Forall; [by_compute|]).
  apply (translate_Forall (λ _, True)); [|by apply Forall_true].
  intros ch _.
  destruct (find _ SfinxBis._substitutions) as [e|] eqn:Hf; simpl.
  - apply find_some in Hf as [Hin _].
    assert (Forall (λ e : N * N, e.2 ≠ 90%N) SfinxBis._substitutions) as Hall
      by by_compute.
    rewrite Forall_forall in Hall. apply Hall. by apply list_elem_of_In.
  - intros ->. vm_compute in Hf. discriminate.
Qed.

(** The first sound of a word of letters is a consonant other than Q, W,
    X and Z, or one of the marks [$] and [#]. *)
Lemma koda_head (a : N) w :
  a ∈ SfinxBis._uc_set → a ≠ 87%N → a ≠ 90%N →
  ∃ ch r, SfinxBis._koda_foersta_ljudet (a :: w) = ch :: r
          ∧ ch ∈ u "BCDFGHJKLMNPRSTV$#".
Proof.
  intros Ha HW HZ.
  unfold SfinxBis._koda_foersta_ljudet.
  change 1%Z with (Z.of_nat 1). change 2%Z with (Z.of_nat 2).
  change 3%Z with (Z.of_nat 3). rewrite !slice_0_take.
  cbn [take]. rewrite ?take_0.
  destruct (PyStr.in_chars [a] SfinxBis._mjuka_vokaler
            || PyStr.in_chars [a] SfinxBis._harde_vokaler) eqn:Hvowel;
    [eexists _, _; split; [reflexivity | compute_done]|].
  destruct (PyStr.eqb [a] (u "Q")) eqn:HQ;
    [repeat match goal with
            | |- context [if ?b then _ else _] => destruct b
            end; eexists _, _; (split; [reflexivity | compute_done])|].
  destruct (PyStr.eqb [a] (u "X")) eqn:HX;
    [repeat match goal with
            | |- context [if ?b then _ else _] => destruct b
            end; eexists _, _; (split; [reflexivity | compute_done])|].
  assert (a ∈ u "BCDFGHJKLMNPRSTV") as Hcons.
  { change SfinxBis._uc_set
      with [65; 66; 67; 68; 69; 70; 71; 72; 73; 74; 75; 76; 77; 78; 79; 80;
            81; 82; 83; 84; 85; 86; 87; 88; 89; 90; 196; 197; 214]%N in Ha.
    rewrite !elem_of_cons, elem_of_nil in Ha.
    repeat (destruct Ha as [->|Ha];
            [first [done | by vm_compute in Hvowel | by vm_compute in HQ
                   | by vm_compute in HX | compute_done]|]).
    done. }
  repeat match goal with
         | |- context [if ?b then _ else _] => destruct b
         end;
    eexists _, _;
    (split; [reflexivity|]);
    first [compute_done
          | change (u "BCDFGHJKLMNPRSTV$#")
              with (u "BCDFGHJKLMNPRSTV" ++ u "$#");
            apply elem_of_app; by left].
Qed.

Lemma Forall2_map_nil (g : str → str) (l l' : list str) :
  g [] = [] →
  Forall2 (λ k r : str, k = [] → r = []) l l' →
  Forall2 (λ k r : str, k = [] → r = []) l (map g l').
Proof.
  intros Hg. induction 1 as [|k r l l' Hkr _ IH]; simpl; constructor.
  - intros Hk. by rewrite (Hkr Hk).
  - done.
Qed.

(** Steps 8 to 11 turn the empty word into the empty word. *)
Lemma digits_of_nil (rest : list str) :
  Forall2 (λ k r : str, k = [] → r = []) rest
          (SfinxBis.digits_of _delete_consecutive_repeats iter rest).
Proof.
  unfold SfinxBis.digits_of. cbv zeta.
  apply Forall2_map_nil; [done|].
  apply Forall2_map_nil; [by apply sublist_nil_r, repeats_deleted|].
  apply Forall2_map_nil; [done|].
  assert (∀ (order : list N) (l : list str),
            Forall2 (λ k r : str, k = [] → r = []) rest l →
            Forall2 (λ k r : str, k = [] → r = []) rest
              (foldl (λ rest vokal,
                        map (PyStr.replace (u "C" ++ [vokal])
                               (u "8" ++ [vokal])) rest)
                     l order)) as Hloop.
  { induction order as [|v order IH]; intros l Hl; simpl; [done|].
    apply IH. by apply Forall2_map_nil. }
  apply Hloop.
  apply Forall2_map_nil; [done|]. apply Forall2_map_nil; [done|].
  clear. induction rest as [|k rest IH]; by constructor.
Qed.

Lemma zip_with_heads (P : N → Prop) : ∀ (kodad outs : list str),
  Forall (λ k, k = [] ∨ ∃ ch r, k = ch :: r ∧ P ch) kodad →
  Forall2 (λ k r : str, k = [] → r = []) (map (drop 1) kodad) outs →
  Forall (λ code, code = [] ∨ ∃ ch r, code = ch :: r ∧ P ch)
         (zip_with (λ first rest, first ++ rest)
                   (map (take 1) kodad) outs).
Proof.
  induction kodad as [|k kodad IH]; intros outs Hk Ho; simpl;
    [constructor|].
  inversion Hk as [|? ? Hk1 Hk2]; subst.
  inversion Ho as [|? o ? outs' Ho1 Ho2]; subst.
  constructor; [|by apply IH].
  destruct Hk1 as [->|(ch & r & -> & Hch)].
  - left. simpl in *. by rewrite Ho1.
  - right. exists ch, (take 0 r ++ o). by split.
Qed.

(** A code is empty or starts with a consonant other than Q, W, X and Z,
    or with one of the marks [$] and [#]. *)
Lemma encode_heads word (max_length : Z) :
  Forall (λ code, code = []
                  ∨ ∃ ch r, code = ch :: r ∧ ch ∈ u "BCDFGHJKLMNPRSTV$#")
         (SfinxBis.encode upper nfc _delete_consecutive_repeats iter
            word max_length).
Proof.
  unfold SfinxBis.encode. cbv zeta.
  destruct (map _delete_consecutive_repeats
              (SfinxBis.words_of upper nfc word)) as [|w0 ws] eqn:Hws.
  { constructor; [by left | constructor]. }
  set (ordlista := w0 :: ws). clearbody ordlista.
  set (kodad := map SfinxBis._koda_foersta_ljudet _).
  assert (Forall (λ k, k = [] ∨ ∃ ch r, k = ch :: r
                                        ∧ ch ∈ u "BCDFGHJKLMNPRSTV$#")
            kodad) as Hkodad.
  { subst kodad. apply Forall_map, Forall_map, Forall_map, Forall_true.
    intros w.
    pose proof (Forall_filter_both _ (λ ch, ch ∈ SfinxBis._uc_set) _
                  (foersvensker_no_W iter w)) as HW.
    pose proof (Forall_filter_both _ (λ ch, ch ∈ SfinxBis._uc_set) _
                  (foersvensker_no_Z w)) as HZ.
    destruct (filter _ (SfinxBis._foersvensker iter w)) as [|a w5];
      [by left|].
    inversion HW as [|? ? [Ha HaW] _]; subst.
    inversion HZ as [|? ? [_ HaZ] _]; subst.
    right. by apply koda_head. }
  assert (map (PyStr.slice 0 1) kodad = map (take 1) kodad) as ->.
  { apply map_ext. intros k. change 1%Z with (Z.of_nat 1).
    apply slice_0_take. }
  assert (map (PyStr.slice_from 1) kodad = map (drop 1) kodad) as ->.
  { apply map_ext. intros k. change 1%Z with (Z.of_nat 1).
    apply slice_from_nat. }
  pose proof (zip_with_heads _ kodad _ Hkodad
                (digits_of_nil (map (drop 1) kodad))) as Hcodes.
  destruct (Z.ltb_spec 0 max_length) as [Hm|Hm]; [|done].
  apply Forall_map. apply (Forall_impl _ _ _ Hcodes).
  intros code [->|(ch & r & -> & Hch)].
  - left. rewrite slice_to_pos by lia. apply take_nil.
  - right. rewrite slice_to_pos by lia.
    destruct (Z.to_nat max_length) as [|n] eqn:Hn; [lia|].
    exists ch, (take n r). by split.
Qed.

End FirstCharacter.

(** X16.  Every SfinxBis code is empty or starts with one of the
    consonants B C D F G H J K L M N P R S T V or with one of the marks
    [$] and [#]: never with a vowel, Q, W, X or Z, a digit or any other
    character, as long as [_delete_consecutive_repeats] only deletes
    characters. *)
Theorem SfinxBis_code_head :
  ∀ (upper nfc _delete_consecutive_repeats : str → str)
    (iter : list N → list N),
    (∀ w, _delete_consecutive_repeats w `sublist_of` w) →
    ∀ (word : str) (max_length : Z),
      Forall (λ code,
                code = []
                ∨ ∃ ch r, code = ch :: r
                          ∧ ch ∈ Chr.u "BCDFGHJKLMNPRSTV$#")
             (SfinxBis.encode upper nfc _delete_consecutive_repeats iter
                word max_length).
Proof.
  intros upper nfc dcr iter Hdcr word max_length.
  by apply encode_heads.
Qed.

Lemma SfinxBis_code_head_witness :
  Forall (λ code,
            code = []
            ∨ ∃ ch r, code = ch :: r ∧ ch ∈ Chr.u "BCDFGHJKLMNPRSTV$#")
         (SfinxBis.encode (λ w, w) (λ w, w) Phonetic.delete_repeats
            (λ s, s) (Chr.u "XAVIER QUIST") 4).
Proof.
  apply (SfinxBis_code_head (λ w, w) (λ w, w) Phonetic.delete_repeats
           (λ s, s)).
  apply delete_repeats_sublist.
Defined.
